(** * movies.py: video scan cache, title deduplication, metadata lookup
      and report presentation.

    A shallow embedding of [movies.py].  Python values are embedded as an
    inductive type of dynamic values, exceptions as an error result, the two
    shelve stores as finite maps inside an explicit world state, and the
    external collaborators (the video scanner, the filesystem [stat], the
    movie database handle) as functions that may raise. *)

From Stdlib Require Import Ascii QArith.
From stdpp Require Import gmap strings pretty list sorting.

Local Open Scope string_scope.
Local Open Scope Z_scope.
Local Open Scope list_scope.

(** ** Exceptions and results *)

(** Every exception modelled here is a subclass of Python's [Exception], so
    an [except Exception] clause catches all of them. *)
Inductive exn : Type :=
  | KeyError
  | TypeError
  | ValueError
  | OSError
  | ProviderError.

Inductive result (A : Type) : Type :=
  | Ok (a : A)
  | Raise (e : exn).
Arguments Ok {A} a.
Arguments Raise {A} e.

Definition rbind {A B} (r : result A) (k : A → result B) : result B :=
  match r with
  | Ok a => k a
  | Raise e => Raise e
  end.

Notation "x ←r e ; k" := (rbind e (λ x, k))
  (at level 20, e at level 100, k at level 200, right associativity,
   format "x  ←r  e ;  '/' k").

Fixpoint rmap {A B} (f : A → result B) (l : list A) : result (list B) :=
  match l with
  | [] => Ok []
  | x :: l' => y ←r f x; ys ←r rmap f l'; Ok (y :: ys)
  end.

Fixpoint rfold {A B} (f : B → A → result B) (b : B) (l : list A)
    : result B :=
  match l with
  | [] => Ok b
  | x :: l' => b' ←r f b x; rfold f b' l'
  end.

(** ** Python values *)

(** The dynamic values that occur in a metadata record.  A float carries the
    exact rational value of a finite double. *)
#[warnings="-register-all"] Inductive value : Type :=
  | VNone
  | VInt (z : Z)
  | VFloat (q : Q)
  | VStr (s : string)
  | VList (l : list value)
  | VDict (d : list (string * value)).

(** Python truth value of a builtin value. *)
Definition truthy (v : value) : bool :=
  match v with
  | VNone => false
  | VInt z => negb (z =? 0)
  | VFloat q => negb (Qeq_bool q 0)
  | VStr s => negb (String.eqb s EmptyString)
  | VList l => match l with [] => false | _ => true end
  | VDict d => match d with [] => false | _ => true end
  end.

(** [a or b] where [b] is a computation that is only run when [a] is falsy. *)
Definition py_or (a : value) (b : result value) : result value :=
  if truthy a then Ok a else b.

(** ** Python's stable [sorted] *)

Section sorted.
Context {A : Type} (le : A → A → bool).

Fixpoint insort (x : A) (l : list A) : list A :=
  match l with
  | [] => [x]
  | y :: l' => if le x y then x :: y :: l' else y :: insort x l'
  end.

(** An element is placed in front of the first later element it is
    [le] to, so elements that compare equal keep their input order. *)
Definition sorted (l : list A) : list A := foldr insort [] l.
End sorted.

(** ** Video descriptors *)

Record Video : Type := {
  name : string;
  title : string;
  year : option Z;
}.

Global Instance Video_eq_dec : EqDecision Video.
Proof. solve_decision. Defined.

Global Instance Video_countable : Countable Video :=
  inj_countable'
    (λ v, (name v, title v, year v))
    (λ t, {| name := t.1.1; title := t.1.2; year := t.2 |})
    (λ v, match v with Build_Video _ _ _ => eq_refl end).

(** A directory, with [str] its string form. *)
Record Path : Type := { str : string }.

(** ** Metadata records *)

(** A movie record of the metadata provider: a [movieID] attribute and a
    dict-like body read with [meta[key]] and [meta.get(key)]. *)
Record Movie : Type := {
  movieID : string;
  data : gmap string value;
}.

(** [meta.get(key)] and [meta.get(key, default)]. *)
Definition meta_get (meta : Movie) (key : string) : value :=
  default VNone (data meta !! key).
Definition meta_get_default (meta : Movie) (key : string) (d : value) : value :=
  default d (data meta !! key).
(** [meta[key]] *)
Definition meta_getitem (meta : Movie) (key : string) : result value :=
  match data meta !! key with
  | Some v => Ok v
  | None => Raise KeyError
  end.

(** The movie database handle passed to [search_movie]. *)
Record IMDb : Type := {
  db_search_movie : string → result (list Movie);
  db_get_movie : string → result Movie;
}.

(** ** The world: the two shelve stores and the calls made to collaborators *)

Inductive event : Type :=
  | EvScan (dir : string)
  | EvSearch (title : string)
  | EvGetMovie (id : string).

Record world : Type := {
  videos_cache : gmap string (gset Video);   (* .videos.cache.shelve *)
  meta_cache : gmap string Movie;            (* .meta.cache.shelve *)
  calls : list event;
}.

(** The three ways the program changes the world. *)
Definition add_calls (es : list event) (w : world) : world :=
  {| videos_cache := videos_cache w;
     meta_cache := meta_cache w;
     calls := calls w ++ es |}.
Definition put_videos (key : string) (videos : gset Video) (w : world)
    : world :=
  {| videos_cache := <[key := videos]> (videos_cache w);
     meta_cache := meta_cache w;
     calls := calls w |}.
Definition put_meta (title : string) (meta : Movie) (w : world) : world :=
  {| videos_cache := videos_cache w;
     meta_cache := <[title := meta]> (meta_cache w);
     calls := calls w |}.

Definition M (A : Type) : Type := world → result A * world.

Definition ret {A} (a : A) : M A := λ w, (Ok a, w).
Definition raise {A} (e : exn) : M A := λ w, (Raise e, w).
Definition bind {A B} (c : M A) (k : A → M B) : M B :=
  λ w, match c w with
       | (Ok a, w') => k a w'
       | (Raise e, w') => (Raise e, w')
       end.
Definition lift {A} (r : result A) : M A := λ w, (r, w).
(** [try: x = c  except Exception: h] followed by [k x]; the handler [h]
    ends in a [return], so [k] only runs when [c] did not raise. *)
Definition try_except {A B} (c : M A) (h : M B) (k : A → M B) : M B :=
  λ w, match c w with
       | (Ok a, w') => k a w'
       | (Raise _, w') => h w'
       end.
Definition log (e : event) : M unit := λ w, (Ok tt, add_calls [e] w).

Notation "x ←m e ; k" := (bind e (λ x, k))
  (at level 20, e at level 100, k at level 200, right associativity,
   format "x  ←m  e ;  '/' k").

Fixpoint mmap {A B} (f : A → M B) (l : list A) : M (list B) :=
  match l with
  | [] => ret []
  | x :: l' => y ←m f x; ys ←m mmap f l'; ret (y :: ys)
  end.

(** ** The program *)

Section program.
(** [subliminal.scan_videos]: the videos found under a directory. *)
Context (scan_videos : string → result (list Video)).
(** [Path(p).stat().st_size]: the size of the file at [p], read again at
    every call; the files are taken not to change while the program runs. *)
Context (st_size : string → result Z).
(** The global worker count set from [--workers]. *)
Context (POOL_SIZE : Z).
(** [bool(movie)]: the truth value the provider's record class defines. *)
Context (movie_bool : Movie → bool).

(** [ThreadPool(POOL_SIZE).map(function, iterable)].  The pool refuses a
    size below one; the results come back in input order, and the calls
    are recorded here in input order too. *)
Definition thread_map {A B} (function : A → M B) (iterable : list A)
    : M (list B) :=
  if POOL_SIZE <? 1 then raise ValueError else mmap function iterable.

Definition video_size (video : Video) : result Z := st_size (name video).

(** [max(a, b, key=key)]: both keys are computed, and [b] is taken only
    when its key is strictly larger. *)
Definition py_max {A} (key : A → result Z) (a b : A) : result A :=
  ka ←r key a;
  kb ←r key b;
  Ok (if ka <? kb then b else a).

(** One iteration of the loop of [unique_videos]. *)
Definition unique_step (unique : gmap string Video) (video : Video)
    : result (gmap string Video) :=
  match unique !! title video with
  | None => Ok (<[title video := video]> unique)
  | Some other =>
      m ←r py_max video_size video other;
      Ok (<[title video := m]> unique)
  end.

Definition unique_videos (videos : list Video) : result (gset Video) :=
  unique ←r rfold unique_step ∅ videos;
  Ok (map_img unique).

Definition videos_key (dirs : list Path) : string :=
  String.concat " " (sorted String.leb (map str dirs)).

(** [if videos:] on the value read from the store: an absent key reads as
    [None], and an empty set is falsy as well. *)
Definition videos_bool (videos : option (gset Video)) : bool :=
  match videos with
  | None => false
  | Some s => negb (bool_decide (s = ∅))
  end.

Definition scan (dir : string) : M (list Video) :=
  _ ←m log (EvScan dir);
  lift (scan_videos dir).

(** [db[key] = videos] on the scan store. *)
Definition store_videos (key : string) (videos : gset Video) : M unit :=
  λ w, (Ok tt, put_videos key videos w).

Definition get_videos (dirs : list Path) : M (gset Video) :=
  let key := videos_key dirs in
  videos ←m (λ w, (Ok (videos_cache w !! key), w));
  if videos_bool videos then ret (default ∅ videos) else
  scanned ←m thread_map scan (map str dirs);
  videos ←m lift (unique_videos (concat scanned));
  _ ←m store_videos key videos;
  ret videos.

(** The two accessors of the metadata store.  Each takes
    [meta_cache_lock] for the time the store is open; calls are modelled
    one after the other, so the lock does not show. *)
Definition get_cached_meta (title : string) : M (option Movie) :=
  λ w, (Ok (meta_cache w !! title), w).

Definition save_cached_meta (title : string) (meta : Movie) : M unit :=
  λ w, (Ok tt, put_meta title meta w).

(** [if meta:] on the value read from the metadata store. *)
Definition meta_bool (meta : option Movie) : bool :=
  match meta with
  | None => false
  | Some m => movie_bool m
  end.

Definition remote_search (db : IMDb) (title : string) : M (list Movie) :=
  _ ←m log (EvSearch title);
  lift (db_search_movie db title).

Definition remote_get_movie (db : IMDb) (id : string) : M Movie :=
  _ ←m log (EvGetMovie id);
  lift (db_get_movie db id).

Definition search_movie (db : IMDb) (title : string) : M (option Movie) :=
  meta ←m get_cached_meta title;
  if meta_bool meta then ret meta else
  try_except (remote_search db title) (ret None) (λ search_result,
    match search_result with
    | [] => ret None
    | meta :: _ =>
        try_except (remote_get_movie db (movieID meta)) (ret None) (λ movie,
          _ ←m save_cached_meta title movie;
          ret (Some movie))
    end).
End program.

(** ** The report: sorting and presentation *)

(** Operations of Python values used by the presenter. *)

(** Iterating a value: a list yields its items, a string its characters, a
    dict its keys; anything else is not iterable. *)
Definition py_iter (v : value) : result (list value) :=
  match v with
  | VList l => Ok l
  | VStr s =>
      Ok ((λ c, VStr (String c EmptyString))
            <$> String.list_ascii_of_string s)
  | VDict d => Ok ((λ kv, VStr kv.1) <$> d)
  | _ => Raise TypeError
  end.

Fixpoint assoc (key : string) (d : list (string * value)) : option value :=
  match d with
  | [] => None
  | (k, v) :: d' => if String.eqb k key then Some v else assoc key d'
  end.

(** [d[key]] for a string key. *)
Definition py_getitem (d : value) (key : string) : result value :=
  match d with
  | VDict kv =>
      match assoc key kv with
      | Some v => Ok v
      | None => Raise KeyError
      end
  | _ => Raise TypeError
  end.

(** [sep.join(items)]: every item has to be a string. *)
Definition py_join (sep : string) (items : list value) : result string :=
  strs ←r rmap (λ v, match v with VStr s => Ok s | _ => Raise TypeError end)
            items;
  Ok (String.concat sep strs).

Fixpoint str_take (n : nat) (s : string) : string :=
  match n, s with
  | S n', String c s' => String c (str_take n' s')
  | _, _ => EmptyString
  end.

(** [v[:n]] *)
Definition py_slice_to (n : nat) (v : value) : result value :=
  match v with
  | VStr s => Ok (VStr (str_take n s))
  | VList l => Ok (VList (take n l))
  | _ => Raise TypeError
  end.

Definition year_value (video : Video) : value :=
  match year video with
  | Some y => VInt y
  | None => VNone
  end.

Definition headers : list string :=
  ["img_url"; "title"; "year"; "country";
   "directors"; "rating"; "summary"; "path"].

Section report.
(** [str(v)], as applied by an f-string. *)
Context (py_str : value → string).
(** [float(s)] on a string: its value, or nothing when it does not parse. *)
Context (parse_float : string → option Q).

Definition year_field (video : Video) (meta : Movie) : result value :=
  py_or (meta_get meta "year")
        (py_or (year_value video) (Ok (VStr EmptyString))).

Definition rating_field (meta : Movie) : value := meta_get meta "rating".

Definition directors_field (meta : Movie) : result value :=
  ds ←r py_or (meta_get meta "directors") (Ok (VList []));
  items ←r py_iter ds;
  names ←r rmap (λ d, py_getitem d "name") items;
  joined ←r py_join " " names;
  Ok (VStr joined).

Definition country_field (meta : Movie) : result value :=
  cs ←r py_or (meta_get meta "countries") (Ok (VList []));
  items ←r py_iter cs;
  joined ←r py_join " " items;
  Ok (VStr joined).

Definition summary_field (meta : Movie) : result value :=
  py_or (meta_get meta "plot outline")
        (py_slice_to 300 (meta_get_default meta "plot" (VStr EmptyString))).

(** The dict appended to [entries] for one (video, meta) pair. *)
Definition make_entry (video : Video) (meta : Movie)
    : result (gmap string value) :=
  title ←r meta_getitem meta "title";
  let url := "https://www.imdb.com/title/tt" +:+ movieID meta in
  let img_url := meta_get meta "cover url" in
  year ←r year_field video meta;
  directors ←r directors_field meta;
  country ←r country_field meta;
  summary ←r summary_field meta;
  Ok (list_to_map
        [("title", VStr ("[" +:+ py_str title +:+ "](" +:+ url +:+ ")"));
         ("year", year);
         ("url", VStr url);
         ("path", VStr ("[path](" +:+ name video +:+ ")"));
         ("img_url", VStr ("![](" +:+ py_str img_url +:+ ")"));
         ("rating", rating_field meta);
         ("directors", directors);
         ("country", country);
         ("summary", summary)]).

(** [e.get(h)] *)
Definition entry_get (e : gmap string value) (h : string) : value :=
  default VNone (e !! h).

(** [print_metadata], up to the table it hands to [tabulate]. *)
Definition print_metadata (metadata : list (Video * Movie))
    : result (list (list value)) :=
  entries ←r rmap (λ vm, make_entry vm.1 vm.2) metadata;
  Ok ((λ e, entry_get e <$> headers) <$> entries).

(** [float(v)]: a number is itself (integers are taken to be small enough
    to be exact as a double), a string is parsed. *)
Definition py_float (v : value) : result Q :=
  match v with
  | VInt z => Ok (inject_Z z)
  | VFloat q => Ok q
  | VStr s =>
      match parse_float s with
      | Some q => Ok q
      | None => Raise ValueError
      end
  | _ => Raise TypeError
  end.

(** The sort key of the driver: [float(e[1].get('rating') or 0)]. *)
Definition rating_key (e : Video * Movie) : result Q :=
  r ←r py_or (meta_get e.2 "rating") (Ok (VInt 0));
  py_float r.

(** [sorted(found, key=rating_key, reverse=True)]: the keys are computed
    first, one per entry, then the entries are sorted on them, an entry
    going before the later ones whose key is not larger. *)
Definition sort_metadata (found : list (Video * Movie))
    : result (list (Video * Movie)) :=
  keys ←r rmap rating_key found;
  Ok ((sorted (λ a b, Qle_bool b.1 a.1) (zip keys found)).*2).

(** The metadata stage of the driver, from the pairs that
    [get_imdb_metadata] yields: with [--metadata] they are sorted and
    presented, without it nothing is printed. *)
Definition main_metadata (args_metadata : bool)
    (found : list (Video * Movie)) : result (option (list (list value))) :=
  if args_metadata then
    metadata ←r sort_metadata found;
    table ←r print_metadata metadata;
    Ok (Some table)
  else Ok None.
End report.

(** ** Predicates and sample data used to state the properties *)

Section dedup_predicates.
Context (st_size : string → result Z).

Definition has_size (v : Video) : Prop := ∃ n, video_size st_size v = Ok n.

(** [u] is at least as large as [v], as far as both sizes can be read. *)
Definition no_smaller (u v : Video) : Prop :=
  ∀ n k,
    video_size st_size u = Ok n → video_size st_size v = Ok k → k ≤ n.

(** Every kept video sits under its own title and came from [seen]. *)
Definition keyed (seen : list Video) (m : gmap string Video) : Prop :=
  ∀ t v, m !! t = Some v → title v = t ∧ v ∈ seen.

(** Every video of [seen] is dominated by the one kept for its title. *)
Definition covers (seen : list Video) (m : gmap string Video) : Prop :=
  ∀ v, v ∈ seen → ∃ u, m !! title v = Some u ∧ no_smaller u v.

(** Every input video that shares its title with a video at another
    position has a size that can be read. *)
Definition collisions_sized (videos : list Video) : Prop :=
  ∀ i j v w, videos !! i = Some v → videos !! j = Some w → i ≠ j →
    title v = title w → has_size v.
End dedup_predicates.

(** The lookup was sent to the provider and came back without a record:
    the search raised, found nothing, or the detail fetch raised. *)
Definition fetch_failed (db : IMDb) (title : string) : Prop :=
  (∃ e, db_search_movie db title = Raise e) ∨
  db_search_movie db title = Ok [] ∨
  (∃ m rest e, db_search_movie db title = Ok (m :: rest) ∧
               db_get_movie db (movieID m) = Raise e).

(** The number an entry is sorted on; 0 stands in when the key cannot be
    computed. *)
Definition rating_of (parse_float : string → option Q) (e : Video * Movie)
    : Q :=
  match rating_key parse_float e with
  | Ok q => q
  | Raise _ => 0%Q
  end.



(** The truth value of the provider's movie class: a movie is false when
    its body holds no title. *)
Definition imdb_movie_bool (m : Movie) : bool :=
  bool_decide (is_Some (data m !! "title")).

(** [str(v)] on the values the samples format: a string is itself, an
    integer its decimal numeral, [None] reads "None". *)
Definition str_sample (v : value) : string :=
  match v with
  | VStr s => s
  | VInt z => pretty z
  | _ => "None"
  end.

(** A [float(s)] that parses no string at all. *)
Definition no_float (s : string) : option Q := None.

(** Sample videos: two files of title A, of 10 and 20 bytes, and one file
    of title B whose size cannot be read. *)
Definition video_a10 : Video :=
  {| name := "/a/a10.mkv"; title := "A"; year := None |}.
Definition video_a20 : Video :=
  {| name := "/a/a20.mkv"; title := "A"; year := Some 2010 |}.
Definition video_b : Video :=
  {| name := "/a/b.mkv"; title := "B"; year := None |}.
Definition video_inception : Video :=
  {| name := "/a/inception.mkv"; title := "Inception"; year := Some 2010 |}.

Definition sample_size (p : string) : result Z :=
  if String.eqb p "/a/a10.mkv" then Ok 10
  else if String.eqb p "/a/a20.mkv" then Ok 20
  else Raise OSError.

Definition scan_finds_b (dir : string) : result (list Video) := Ok [video_b].

(** Two directory lists: the one directory [/a /b], and the two directories
    [/a] and [/b]. *)
Definition dirs_spaced : list Path := [ {| str := "/a /b" |} ].
Definition dirs_split : list Path := [ {| str := "/a" |}; {| str := "/b" |} ].

Definition world_fresh : world :=
  {| videos_cache := ∅; meta_cache := ∅; calls := [] |}.
Definition world_hit : world :=
  {| videos_cache := {[ "/a" := {[ video_b ]} ]};
     meta_cache := ∅; calls := [] |}.
Definition world_spaced : world :=
  {| videos_cache := {[ "/a /b" := {[ video_b ]} ]};
     meta_cache := ∅; calls := [] |}.
Definition world_empty_hit : world :=
  {| videos_cache := {[ "/a" := ∅ ]}; meta_cache := ∅; calls := [] |}.

(** Sample records and database handles. *)
Definition inception_found : Movie := {| movieID := "1375666"; data := ∅ |}.
Definition inception : Movie :=
  {| movieID := "1375666";
     data := {[ "title" := VStr "Inception"; "year" := VInt 2010 ]} |}.
Definition inception_untitled : Movie :=
  {| movieID := "1375666"; data := {[ "year" := VInt 2010 ]} |}.
Definition db_up : IMDb :=
  {| db_search_movie := λ _, Ok [inception_found];
     db_get_movie := λ _, Ok inception |}.
Definition db_partial : IMDb :=
  {| db_search_movie := λ _, Ok [inception_found];
     db_get_movie := λ _, Ok inception_untitled |}.
Definition db_down : IMDb :=
  {| db_search_movie := λ _, Raise ProviderError;
     db_get_movie := λ _, Raise ProviderError |}.

Definition movie_title_only : Movie :=
  {| movieID := "1375666"; data := {[ "title" := VStr "Inception" ]} |}.
Definition movie_rated : Movie :=
  {| movieID := "1375666";
     data := {[ "title" := VStr "Inception";
                "rating" := VFloat (88 # 10) ]} |}.

(** ** The metadata stage and the directory arguments of the driver *)

(** Whitespace as [str.strip] sees it, for the characters below 128. *)
Definition py_isspace (c : Ascii.ascii) : bool :=
  let n := Ascii.nat_of_ascii c in
  ((9 <=? n) && (n <=? 13) || (28 <=? n) && (n <=? 32))%nat.

Fixpoint py_lstrip (s : string) : string :=
  match s with
  | EmptyString => EmptyString
  | String c s' => if py_isspace c then py_lstrip s' else s
  end.

Fixpoint py_rstrip (s : string) : string :=
  match s with
  | EmptyString => EmptyString
  | String c s' =>
      match py_rstrip s' with
      | EmptyString => if py_isspace c then EmptyString
                       else String c EmptyString
      | r => String c r
      end
  end.

(** [s.strip()] *)
Definition py_strip (s : string) : string := py_lstrip (py_rstrip s).

(** [s.split(sep)] for a separator of one character: the pieces between the
    separators, an empty string giving one empty piece. *)
Fixpoint py_split (sep : Ascii.ascii) (s : string) : list string :=
  match s with
  | EmptyString => [EmptyString]
  | String c s' =>
      if Ascii.eqb c sep then EmptyString :: py_split sep s'
      else match py_split sep s' with
           | [] => [String c EmptyString]
           | piece :: pieces => String c piece :: pieces
           end
  end.

(** Whether the character occurs in the string. *)
Fixpoint has_char (c : Ascii.ascii) (s : string) : bool :=
  match s with
  | EmptyString => false
  | String c' s' => Ascii.eqb c' c || has_char c s'
  end.

Section metadata_stage.
Context (POOL_SIZE : Z).
Context (movie_bool : Movie → bool).

(** The query string built by [_search_movie]: the title, a space and the
    year when the video has one that is not 0, stripped. *)
Definition movie_query (video : Video) : string :=
  let year :=
    match year video with
    | Some y => if y =? 0 then EmptyString else pretty y
    | None => EmptyString
    end in
  py_strip (title video +:+ " " +:+ year).

Definition _search_movie (db : IMDb) (video : Video) : M (option Movie) :=
  search_movie movie_bool db (movie_query video).

(** [get_imdb_metadata], with [db] the handle that [IMDb()] gives and
    [videos] the videos in the order in which the set is iterated; the
    result is the list of the pairs that the generator yields. *)
Definition get_imdb_metadata (db : IMDb) (videos : list Video)
    : M (list (Video * Movie)) :=
  results ←m thread_map POOL_SIZE (_search_movie db) videos;
  ret (omap (λ vr : Video * option Movie,
               match vr.2 with
               | Some result =>
                   if movie_bool result then Some (vr.1, result) else None
               | None => None
               end)
            (zip videos results)).
End metadata_stage.

Definition DEFAULT_PLACES : list string :=
  ["~/Downloads"; "~/.aMule/Incoming"].

(** How the driver can end while it reads its directories: with the
    [AttributeError] of a string that is asked to [extend], or with the
    exception of a path that cannot be made absolute. *)
Inductive main_exn : Type :=
  | AttributeError
  | PathError (e : exn).

Section main_dirs.
(** [Path(s).expanduser().absolute()] *)
Context (absolute : string → result Path).

(** The directory list the driver hands to [get_videos], from the values
    of [--dirs] and of the repeated [--dir].  An empty [--dirs] is falsy
    and stays a string: it cannot be extended, and iterating it gives no
    directory. *)
Definition main_dirs (args_dirs : string) (args_dir : list string)
    : main_exn + list Path :=
  if String.eqb args_dirs EmptyString then
    match args_dir with
    | [] => inr []
    | _ :: _ => inl AttributeError
    end
  else
    match rmap absolute
            ((py_strip <$> py_split ","%char args_dirs)
               ++ (py_strip <$> args_dir))
    with
    | Ok dirs => inr dirs
    | Raise e => inl (PathError e)
    end.
End main_dirs.

(** More sample data. *)
Definition video_titled (t : string) : Video :=
  {| name := "/a/" +:+ t +:+ ".mkv"; title := t; year := None |}.
Definition sample_absolute (s : string) : result Path :=
  Ok {| str := "/home/user/" +:+ s |}.
Definition movie_bad_rating : Movie :=
  {| movieID := "1375666";
     data := {[ "title" := VStr "Inception";
                "rating" := VList [VInt 8] ]} |}.
Definition movie_credits : Movie :=
  {| movieID := "1375666";
     data := {[ "title" := VStr "Inception";
                "directors" :=
                  VList [VDict [("name", VStr "Christopher Nolan")];
                         VDict [("id", VInt 2);
                                ("name", VStr "Emma Thomas")]];
                "countries" := VList [VStr "USA"; VStr "UK"] ]} |}.
Definition db_inception_only : IMDb :=
  {| db_search_movie := λ t,
       if String.eqb t "Inception 2010" then Ok [inception_found]
       else Ok [];
     db_get_movie := λ _, Ok inception |}.

(** * Theorems *)

(** ** Properties of [sorted] *)


Section sorted_facts.
Context {A : Type} (le : A → A → bool).

Lemma insort_Permutation x l : insort le x l ≡ₚ x :: l.
Proof.
  induction l as [|y l IH]; simpl; [done|].
  destruct (le x y); [done|]. by rewrite IH, Permutation_swap.
Qed.

Lemma sorted_Permutation l : sorted le l ≡ₚ l.
Proof.
  induction l as [|x l IH]; simpl; [done|].
  by rewrite insort_Permutation, IH.
Qed.

Context (le_total : ∀ x y, le x y ∨ le y x).
Context (le_trans : ∀ x y z, le x y → le y z → le x z).

Lemma insort_StronglySorted x l :
  StronglySorted (λ a b, le a b) l →
  StronglySorted (λ a b, le a b) (insort le x l).
Proof.
  induction 1 as [|y l Hl IH Hy]; simpl.
  { repeat constructor. }
  destruct (le x y) eqn:Hxy.
  - constructor; [by constructor|]. constructor; [by rewrite Hxy|].
    eapply Forall_impl; [exact Hy|]. intros z. apply le_trans.
    by rewrite Hxy.
  - constructor; [done|]. rewrite insort_Permutation.
    constructor; [|done]. destruct (le_total x y) as [H|H]; [|done].
    by rewrite Hxy in H.
Qed.

Lemma sorted_StronglySorted l : StronglySorted (λ a b, le a b) (sorted le l).
Proof.
  induction l as [|x l IH]; simpl; [constructor|].
  by apply insort_StronglySorted.
Qed.
End sorted_facts.

Section sorted_map.
Context {A B : Type} (f : A → B) (le : B → B → bool).

Lemma insort_fmap x l :
  insort le (f x) (f <$> l) = f <$> insort (λ a b, le (f a) (f b)) x l.
Proof.
  induction l as [|y l IH]; simpl; [done|].
  destruct (le (f x) (f y)); simpl; [done|]. f_equal. apply IH.
Qed.

Lemma sorted_fmap l :
  sorted le (f <$> l) = f <$> sorted (λ a b, le (f a) (f b)) l.
Proof.
  induction l as [|x l IH]; [done|].
  change (insort le (f x) (sorted le (f <$> l)) =
          f <$> insort (λ a b, le (f a) (f b)) x
                  (sorted (λ a b, le (f a) (f b)) l)).
  rewrite IH. apply insort_fmap.
Qed.
End sorted_map.

(** ** The world *)

Lemma add_calls_nil w : add_calls [] w = w.
Proof. destruct w. unfold add_calls. simpl. by rewrite app_nil_r. Qed.

Lemma add_calls_app es1 es2 w :
  add_calls es2 (add_calls es1 w) = add_calls (es1 ++ es2) w.
Proof. unfold add_calls. simpl. by rewrite (assoc_L (++)). Qed.

(** ** The deduplication *)

Section unique_videos_facts.
Context (st_size : string → result Z).

Abbreviation video_size := (video_size st_size).
Abbreviation unique_step := (unique_step st_size).
Abbreviation unique_videos := (unique_videos st_size).

Abbreviation has_size := (has_size st_size).
Abbreviation no_smaller := (no_smaller st_size).
Abbreviation covers := (covers st_size).
Abbreviation collisions_sized := (collisions_sized st_size).

Lemma py_max_inv (a b c : Video) :
  py_max video_size a b = Ok c →
  ∃ ka kb, video_size a = Ok ka ∧ video_size b = Ok kb ∧
    (c = a ∨ c = b) ∧
    ∃ kc, video_size c = Ok kc ∧ ka ≤ kc ∧ kb ≤ kc.
Proof.
  unfold py_max. destruct (video_size a) as [ka|] eqn:Ha; [|done].
  destruct (video_size b) as [kb|] eqn:Hb; [|done].
  simpl. intros [= <-]. exists ka, kb. split_and!; [done..| |].
  - destruct (ka <? kb); auto.
  - destruct (Z.ltb_spec ka kb); eauto with lia.
Qed.

Lemma unique_step_inv seen m x m' :
  unique_step m x = Ok m' →
  keyed seen m → covers seen m →
  keyed (seen ++ [x]) m' ∧ covers (seen ++ [x]) m'.
Proof.
  unfold unique_step. intros Hstep Hk Hc.
  destruct (m !! title x) as [other|] eqn:Hx.
  - destruct (py_max video_size x other) as [c|] eqn:Hmax; [|done].
    simpl in Hstep. injection Hstep as <-.
    apply py_max_inv in Hmax
      as (ka & kb & Ha & Hb & Hc' & kc & Hkc & Hle1 & Hle2).
    destruct (Hk _ _ Hx) as [Hto Hin]. split.
    + intros t v. rewrite lookup_insert. case_decide as Ht.
      * intros [= <-]. rewrite elem_of_app, list_elem_of_singleton.
        destruct Hc' as [-> | ->]; split; auto; congruence.
      * intros Hv. destruct (Hk _ _ Hv). rewrite elem_of_app. auto.
    + intros v [Hv| ->%list_elem_of_singleton]%elem_of_app.
      * destruct (Hc v Hv) as (u & Hu & Hdom).
        rewrite lookup_insert. case_decide as Ht; [|eauto].
        exists c. split; [done|]. intros n k Hn Hkv.
        rewrite Ht, Hu in Hx. injection Hx as ->.
        specialize (Hdom _ _ Hb Hkv).
        assert (n = kc) by congruence. lia.
      * exists c. rewrite lookup_insert_eq. split; [done|].
        intros n k Hn Hkx.
        assert (n = kc) by congruence. assert (k = ka) by congruence. lia.
  - injection Hstep as <-. split.
    + intros t v. rewrite lookup_insert. case_decide as Ht.
      * intros [= <-]. split; [done|].
        rewrite elem_of_app, list_elem_of_singleton. auto.
      * intros Hv. destruct (Hk _ _ Hv). rewrite elem_of_app. auto.
    + intros v [Hv| ->%list_elem_of_singleton]%elem_of_app.
      * destruct (Hc v Hv) as (u & Hu & Hdom).
        rewrite lookup_insert_ne; [eauto|]. congruence.
      * exists x. rewrite lookup_insert_eq. split; [done|].
        intros n k Hn Hkx. assert (n = k) by congruence. lia.
Qed.

Lemma rfold_unique_inv vs : ∀ seen m m',
  rfold unique_step m vs = Ok m' →
  keyed seen m → covers seen m →
  keyed (seen ++ vs) m' ∧ covers (seen ++ vs) m'.
Proof.
  induction vs as [|x vs IH]; intros seen m m' Hfold Hk Hc.
  - injection Hfold as <-. by rewrite app_nil_r.
  - simpl in Hfold. destruct (unique_step m x) as [m1|] eqn:Hstep; [|done].
    simpl in Hfold.
    destruct (unique_step_inv _ _ _ _ Hstep Hk Hc) as [Hk1 Hc1].
    rewrite cons_middle, (assoc_L (++)).
    eauto.
Qed.

(** The loop cannot fail when the sizes it compares can be read. *)
Lemma rfold_unique_ok vs : ∀ seen m,
  keyed seen m → covers seen m →
  collisions_sized (seen ++ vs) →
  ∃ m', rfold unique_step m vs = Ok m'.
Proof.
  induction vs as [|x vs IH]; intros seen m Hk Hc Hsz; [by eexists|].
  assert (∃ m1, unique_step m x = Ok m1) as [m1 Hstep].
  { unfold unique_step. destruct (m !! title x) as [other|] eqn:Hlk;
      [|by eexists].
    destruct (Hk _ _ Hlk) as [Hto [j Hj]%list_elem_of_lookup].
    assert (j < length seen)%nat as Hlt by by eapply lookup_lt_Some.
    assert ((seen ++ x :: vs) !! length seen = Some x) as Hx
      by by rewrite list_lookup_middle.
    assert ((seen ++ x :: vs) !! j = Some other) as Ho
      by by rewrite lookup_app_l.
    destruct (Hsz _ _ _ _ Hx Ho) as [kx Hkx]; [lia|done|].
    destruct (Hsz _ _ _ _ Ho Hx) as [ko Hko]; [lia|done|].
    unfold py_max. rewrite Hkx, Hko. simpl. by eexists. }
  simpl. rewrite Hstep. simpl.
  destruct (unique_step_inv _ _ _ _ Hstep Hk Hc) as [Hk1 Hc1].
  apply (IH (seen ++ [x])); [done..|].
  by rewrite <-(assoc_L (++)), <-cons_middle.
Qed.

Lemma keyed_inj seen m t1 t2 v w :
  keyed seen m → m !! t1 = Some v → m !! t2 = Some w →
  title v = title w → v = w.
Proof.
  intros Hk Hv Hw Ht. destruct (Hk _ _ Hv) as [<- _].
  destruct (Hk _ _ Hw) as [<- _]. rewrite Ht in Hv. congruence.
Qed.

(** Without a collision the loop just inserts every video. *)
Lemma rfold_unique_fresh l : ∀ m,
  NoDup (title <$> l) →
  (∀ v, v ∈ l → m !! title v = None) →
  rfold unique_step m l = Ok (foldl (λ m v, <[title v := v]> m) m l).
Proof.
  induction l as [|x l IH]; intros m Hnd Hfresh; [done|].
  apply NoDup_cons in Hnd as [Hx Hnd]. simpl.
  unfold unique_step at 1. rewrite (Hfresh x) by left. simpl.
  apply IH; [done|]. intros v Hv. rewrite lookup_insert_ne.
  - apply Hfresh. by right.
  - intros Heq. apply Hx. rewrite Heq. by apply list_elem_of_fmap_2.
Qed.

Lemma lookup_foldl_insert l : ∀ (m : gmap string Video) t v,
  NoDup (title <$> l) →
  (∀ v, v ∈ l → m !! title v = None) →
  foldl (λ m v, <[title v := v]> m) m l !! t = Some v ↔
    (v ∈ l ∧ title v = t) ∨ m !! t = Some v.
Proof.
  induction l as [|x l IH]; intros m t v Hnd Hfresh; simpl.
  { split; [auto|]. intros [[[]%elem_of_nil _]|]; done. }
  apply NoDup_cons in Hnd as [Hx Hnd]. rewrite IH; [|done|].
  - rewrite lookup_insert. case_decide as Ht.
    + split.
      * intros [[Hv <-]|[= <-]]; [left; split; [by right|done]|].
        left. split; [by left|done].
      * intros [[[-> | Hv]%elem_of_cons Htv]|Hm]; [by right|by left; auto|].
        subst t. rewrite (Hfresh x) in Hm by left. done.
    + split.
      * intros [[Hv <-]|Hm]; [left; split; [by right|done]|by right].
      * intros [[[-> | Hv]%elem_of_cons Htv]|Hm]; [done|by left; auto|by right].
  - intros w Hw. rewrite lookup_insert_ne; [apply Hfresh; by right|].
    intros Heq. apply Hx. rewrite Heq. by apply list_elem_of_fmap_2.
Qed.


(** C6: running [unique_videos] again on the elements of its own result,
    in whatever order the set is iterated, returns the same set, and that
    set holds at most one video per title. *)
Theorem unique_videos_idempotent (videos l : list Video) (s : gset Video) :
  unique_videos videos = Ok s →
  l ≡ₚ elements s →
  unique_videos l = Ok s ∧
  (∀ v w, v ∈ s → w ∈ s → title v = title w → v = w).
Proof.
  unfold unique_videos at 1. intros Hs Hl.
  destruct (rfold unique_step ∅ videos) as [m|] eqn:Hm; [|done].
  simpl in Hs. injection Hs as <-.
  destruct (rfold_unique_inv videos [] ∅ m Hm) as [Hk _].
  { intros t v. by rewrite lookup_empty. }
  { intros v Hv. by apply elem_of_nil in Hv. }
  assert (∀ v w : Video, v ∈ (map_img m : gset Video) →
            w ∈ (map_img m : gset Video) → title v = title w → v = w)
    as Hinj.
  { intros v w [t1 Hv]%elem_of_map_img [t2 Hw]%elem_of_map_img.
    by eapply keyed_inj. }
  split; [|done].
  assert (NoDup (title <$> l)) as Hnd.
  { rewrite Hl. apply NoDup_fmap_2_strong; [|apply NoDup_elements].
    intros v w ?%elem_of_elements ?%elem_of_elements. by apply Hinj. }
  unfold unique_videos. rewrite rfold_unique_fresh; [|done..]. simpl.
  f_equal. apply set_eq. intros v.
  rewrite elem_of_map_img. setoid_rewrite lookup_foldl_insert; [|done..].
  setoid_rewrite lookup_empty. rewrite <-(elem_of_elements (map_img m)), <-Hl.
  split.
  - intros (t & [[Hv _]|?]); done.
  - intros Hv. exists (title v). auto.
Qed.
End unique_videos_facts.

(** A computed set is compared with an expected one by deciding their
    equality, which keeps the sets themselves out of the normal form. *)
Lemma result_set_eq (r : result (gset Video)) (s : gset Video) :
  match r with
  | Ok s' => bool_decide (s' = s)
  | Raise _ => false
  end = true →
  r = Ok s.
Proof.
  destruct r as [s'|]; [|done]. by intros ->%bool_decide_eq_true.
Qed.


(** The sample of the specification: of two videos of title A, of 10 and
    20 bytes, only the one of 20 bytes is kept. *)
Example unique_videos_sample :
  unique_videos sample_size [video_a10; video_a20; video_b]
    = Ok {[ video_a20; video_b ]}.
Proof. apply result_set_eq. vm_compute. reflexivity. Qed.

Lemma unique_videos_idempotent_witness :
  unique_videos sample_size [video_b; video_a20]
    = Ok {[ video_a20; video_b ]} ∧
  (∀ v w : Video,
     v ∈ ({[ video_a20; video_b ]} : gset Video) →
     w ∈ ({[ video_a20; video_b ]} : gset Video) →
     title v = title w → v = w).
Proof.
  apply (unique_videos_idempotent sample_size
           [video_a10; video_a20; video_b]).
  - apply result_set_eq. vm_compute. reflexivity.
  - replace (elements ({[ video_a20; video_b ]} : gset Video))
      with [video_a20; video_b] by (vm_compute; reflexivity).
    apply perm_swap.
Defined.

(** ** The scan cache key *)

Lemma sorted_strings_sorted (l : list string) :
  StronglySorted String.le (sorted String.leb l).
Proof.
  apply (sorted_StronglySorted String.leb).
  - intros x y. apply (total String.le).
  - intros x y z. apply (transitivity (R:=String.le)).
Qed.

Lemma sorted_strings_unique (l1 l2 : list string) :
  l1 ≡ₚ l2 → sorted String.leb l1 = sorted String.leb l2.
Proof.
  intros Hl.
  apply (StronglySorted_unique String.le); [apply sorted_strings_sorted..|].
  by rewrite !sorted_Permutation.
Qed.

(** C5: two directory lists that are permutations of each other get the
    same cache key, and the key is the string forms of the directories,
    sorted in lexicographic order and joined by single spaces. *)
Theorem videos_key_order_independent (dirs1 dirs2 : list Path) :
  dirs1 ≡ₚ dirs2 →
  videos_key dirs1 = videos_key dirs2 ∧
  ∃ l, l ≡ₚ str <$> dirs1 ∧ StronglySorted String.le l ∧
       videos_key dirs1 = String.concat " " l.
Proof.
  intros Hd. unfold videos_key. split.
  - f_equal. apply sorted_strings_unique. by rewrite Hd.
  - exists (sorted String.leb (map str dirs1)).
    split_and!; [apply sorted_Permutation|apply sorted_strings_sorted|done].
Qed.

Lemma videos_key_order_independent_witness :
  videos_key [ {| str := "/b" |}; {| str := "/a" |} ]
    = videos_key [ {| str := "/a" |}; {| str := "/b" |} ] ∧
  ∃ l, l ≡ₚ str <$> [ {| str := "/b" |}; {| str := "/a" |} ] ∧
       StronglySorted String.le l ∧
       videos_key [ {| str := "/b" |}; {| str := "/a" |} ]
         = String.concat " " l.
Proof.
  apply (videos_key_order_independent
           [ {| str := "/b" |}; {| str := "/a" |} ]
           [ {| str := "/a" |}; {| str := "/b" |} ]).
  apply perm_swap.
Defined.

Example videos_key_sample :
  videos_key [ {| str := "/b" |}; {| str := "/a" |}; {| str := "/a b" |} ]
    = "/a /a b /b".
Proof. reflexivity. Qed.

(** ** The scan cache *)

Section get_videos_facts.
Context (scan_videos : string → result (list Video)).
Context (st_size : string → result Z).
Context (POOL_SIZE : Z).

Abbreviation scan := (scan scan_videos).
Abbreviation get_videos := (get_videos scan_videos st_size POOL_SIZE).

Lemma mmap_scan dirs : ∀ scanned w,
  rmap scan_videos dirs = Ok scanned →
  mmap scan dirs w = (Ok scanned, add_calls (EvScan <$> dirs) w).
Proof.
  induction dirs as [|d dirs IH]; intros scanned w Hs; simpl in *.
  { injection Hs as <-. by rewrite add_calls_nil. }
  destruct (scan_videos d) as [vs|] eqn:Hd; [|done]. simpl in Hs.
  destruct (rmap scan_videos dirs) as [vss|] eqn:Hds; [|done].
  injection Hs as <-.
  unfold bind, scan at 1, bind, log, lift. rewrite Hd.
  rewrite (IH vss) by done. by rewrite add_calls_app.
Qed.

(** A non-empty set stored under the key is returned as it is. *)
Lemma get_videos_hit dirs w s :
  videos_cache w !! videos_key dirs = Some s → s ≠ ∅ →
  get_videos dirs w = (Ok s, w).
Proof.
  intros Hs Hne. unfold get_videos, bind. rewrite Hs. simpl.
  by rewrite bool_decide_eq_false_2.
Qed.

(** Without a usable stored set, the directories are scanned and the
    deduplicated videos are stored under the key. *)
Lemma get_videos_miss dirs w scanned s :
  videos_cache w !! videos_key dirs = None ∨
    videos_cache w !! videos_key dirs = Some ∅ →
  1 ≤ POOL_SIZE →
  rmap scan_videos (str <$> dirs) = Ok scanned →
  unique_videos st_size (concat scanned) = Ok s →
  get_videos dirs w =
    (Ok s, put_videos (videos_key dirs) s
             (add_calls (EvScan <$> (str <$> dirs)) w)).
Proof.
  intros Hmiss Hpool Hscan Huniq. unfold get_videos, bind.
  assert (videos_bool (videos_cache w !! videos_key dirs) = false) as ->.
  { destruct Hmiss as [-> | ->]; [done|]. simpl.
    by rewrite bool_decide_eq_true_2. }
  unfold thread_map. destruct (Z.ltb_spec POOL_SIZE 1) as [|_]; [lia|].
  rewrite (mmap_scan _ scanned) by done.
  unfold lift, store_videos, ret. by rewrite Huniq.
Qed.

(** C1, as the code has it: a non-empty set stored under the key of the
    directory list is returned at once and the world is left as it was, so
    the scanner is not called.  When the key is absent, or the set stored
    under it is empty, and the pool has at least one worker, and every scan
    and the deduplication succeed, the scanner is called on every
    directory, and the deduplicated set is stored under the key and
    returned. *)
Theorem get_videos_cache (dirs : list Path) (w : world) :
  (∀ s, videos_cache w !! videos_key dirs = Some s → s ≠ ∅ →
     get_videos dirs w = (Ok s, w)) ∧
  (∀ scanned s,
     videos_cache w !! videos_key dirs = None ∨
       videos_cache w !! videos_key dirs = Some ∅ →
     1 ≤ POOL_SIZE →
     rmap scan_videos (str <$> dirs) = Ok scanned →
     unique_videos st_size (concat scanned) = Ok s →
     get_videos dirs w =
       (Ok s, put_videos (videos_key dirs) s
                (add_calls (EvScan <$> (str <$> dirs)) w))).
Proof.
  split.
  - intros s. apply get_videos_hit.
  - intros scanned s. apply get_videos_miss.
Qed.
End get_videos_facts.

Lemma singleton_video_nonempty (v : Video) : ({[ v ]} : gset Video) ≠ ∅.
Proof. apply non_empty_singleton_L. Qed.

Lemma get_videos_cache_witness :
  get_videos scan_finds_b sample_size 10 [ {| str := "/a" |} ] world_hit
    = (Ok {[ video_b ]}, world_hit) ∧
  get_videos scan_finds_b sample_size 10 [ {| str := "/a" |} ] world_fresh
    = (Ok {[ video_b ]},
       put_videos "/a" {[ video_b ]} (add_calls [EvScan "/a"] world_fresh)).
Proof.
  destruct (get_videos_cache scan_finds_b sample_size 10
              [ {| str := "/a" |} ] world_hit) as [Hhit _].
  destruct (get_videos_cache scan_finds_b sample_size 10
              [ {| str := "/a" |} ] world_fresh) as [_ Hmiss].
  split.
  - apply Hhit; [reflexivity|apply singleton_video_nonempty].
  - apply (Hmiss [[video_b]] {[ video_b ]}).
    + left. reflexivity.
    + lia.
    + reflexivity.
    + apply result_set_eq. vm_compute. reflexivity.
Defined.

(** The empty set stored under the key does not stop the scan: the scanner
    runs, and what comes back is not the stored value. *)
Lemma get_videos_empty_hit_rescans :
  videos_cache world_empty_hit !! videos_key [ {| str := "/a" |} ]
    = Some ∅ ∧
  get_videos scan_finds_b sample_size 10 [ {| str := "/a" |} ] world_empty_hit
    = (Ok {[ video_b ]},
       put_videos "/a" {[ video_b ]}
         (add_calls [EvScan "/a"] world_empty_hit)) ∧
  get_videos scan_finds_b sample_size 10 [ {| str := "/a" |} ] world_empty_hit
    ≠ (Ok ∅, world_empty_hit).
Proof.
  assert (get_videos scan_finds_b sample_size 10 [ {| str := "/a" |} ]
            world_empty_hit
          = (Ok {[ video_b ]},
             put_videos "/a" {[ video_b ]}
               (add_calls [EvScan "/a"] world_empty_hit))) as Hrun.
  { apply (get_videos_miss scan_finds_b sample_size 10
             [ {| str := "/a" |} ] world_empty_hit
             [[video_b]] {[ video_b ]}).
    - right. reflexivity.
    - lia.
    - reflexivity.
    - apply result_set_eq. vm_compute. reflexivity. }
  split_and!; [reflexivity|exact Hrun|].
  rewrite Hrun. intros Heq. apply (f_equal (λ r, calls r.2)) in Heq.
  discriminate.
Qed.

(** C10: the key does not tell directory lists apart.  The one directory
    [/a /b] and the two directories [/a] and [/b] are different lists with
    the same key, so a set stored for the first list is what the second
    list is answered with, without a scan. *)
Theorem videos_key_not_injective :
  dirs_spaced ≠ dirs_split ∧
  ¬ dirs_spaced ≡ₚ dirs_split ∧
  videos_key dirs_spaced = videos_key dirs_split ∧
  ∀ scan_videos st_size POOL_SIZE w s,
    videos_cache w !! videos_key dirs_spaced = Some s → s ≠ ∅ →
    get_videos scan_videos st_size POOL_SIZE dirs_split w = (Ok s, w).
Proof.
  split_and!.
  - discriminate.
  - intros Hp. apply Permutation_length in Hp. discriminate.
  - reflexivity.
  - intros scan_videos st_size POOL_SIZE w s Hs Hne.
    by apply get_videos_hit.
Qed.

Lemma videos_key_not_injective_witness :
  get_videos scan_finds_b sample_size 10 dirs_split world_spaced
    = (Ok {[ video_b ]}, world_spaced).
Proof.
  apply (proj2 (proj2 (proj2 videos_key_not_injective))).
  - reflexivity.
  - apply singleton_video_nonempty.
Defined.

(** ** The metadata cache *)

Section search_movie_facts.
Context (movie_bool : Movie → bool).

Abbreviation meta_bool := (meta_bool movie_bool).
Abbreviation search_movie := (search_movie movie_bool).

Lemma search_movie_unfold db title w :
  search_movie db title w =
    if meta_bool (meta_cache w !! title) then (Ok (meta_cache w !! title), w)
    else
      match db_search_movie db title with
      | Raise _ | Ok [] => (Ok None, add_calls [EvSearch title] w)
      | Ok (m :: _) =>
          match db_get_movie db (movieID m) with
          | Raise _ =>
              (Ok None, add_calls [EvSearch title; EvGetMovie (movieID m)] w)
          | Ok movie =>
              (Ok (Some movie),
               put_meta title movie
                 (add_calls [EvSearch title; EvGetMovie (movieID m)] w))
          end
      end.
Proof.
  unfold search_movie, bind, get_cached_meta.
  destruct (meta_bool (meta_cache w !! title)); [done|].
  unfold try_except, remote_search, bind, log, lift.
  destruct (db_search_movie db title) as [[|m rest]|]; [done| |done].
  unfold remote_get_movie, bind, log, lift.
  destruct (db_get_movie db (movieID m)); unfold save_cached_meta, ret;
    by rewrite add_calls_app.
Qed.

(** C3, as the code has it: once a lookup has returned a record whose
    truth value is true, the record is in the metadata store under the
    query string; every later call with that query string, on any store
    that still holds it, returns it and leaves the world as it was, so
    neither the remote search nor the detail fetch is called; and no
    later call, for whatever query, removes or replaces it. *)
Theorem search_movie_cached db title w movie w1 :
  search_movie db title w = (Ok (Some movie), w1) →
  movie_bool movie = true →
  meta_cache w1 !! title = Some movie ∧
  (∀ db' w', meta_cache w' !! title = Some movie →
     search_movie db' title w' = (Ok (Some movie), w')) ∧
  (∀ db' title' w', meta_cache w' !! title = Some movie →
     meta_cache (search_movie db' title' w').2 !! title = Some movie).
Proof.
  intros Hcall Htrue. split_and!.
  - rewrite search_movie_unfold in Hcall.
    destruct (meta_bool (meta_cache w !! title)); [congruence|].
    destruct (db_search_movie db title) as [[|m rest]|]; [done| |done].
    destruct (db_get_movie db (movieID m)); [|done].
    injection Hcall as <- <-. apply lookup_insert_eq.
  - intros db' w' Hw'. rewrite search_movie_unfold, Hw'. simpl.
    by rewrite Htrue.
  - intros db' title' w' Hw'. rewrite search_movie_unfold.
    destruct (meta_bool (meta_cache w' !! title')) eqn:Hb; [done|].
    assert (title' ≠ title) as Hne.
    { intros ->. rewrite Hw' in Hb. simpl in Hb. congruence. }
    destruct (db_search_movie db' title') as [[|m rest]|]; [done| |done].
    destruct (db_get_movie db' (movieID m)); [|done].
    simpl. by rewrite lookup_insert_ne.
Qed.

(** C4: when a call sends the query to the provider and the search
    raises, or finds nothing, or the detail fetch raises, the call
    returns [None] without raising and leaves the metadata store as it
    was, so the next call with the same query sends it to the provider
    again. *)
Theorem search_movie_failure db title w r w1 new :
  search_movie db title w = (r, w1) →
  calls w1 = calls w ++ new →
  EvSearch title ∈ new →
  fetch_failed db title →
  r = Ok None ∧
  meta_cache w1 = meta_cache w ∧
  ∀ db', ∃ rest,
    calls (search_movie db' title w1).2 = calls w1 ++ EvSearch title :: rest.
Proof.
  intros Hcall Hnew Hin Hfail. rewrite search_movie_unfold in Hcall.
  destruct (meta_bool (meta_cache w !! title)) eqn:Hb.
  { injection Hcall as <- <-.
    rewrite <-(app_nil_r (calls w)) in Hnew at 1.
    apply (inj (app _)) in Hnew as <-. by apply elem_of_nil in Hin. }
  assert (r = Ok None ∧ meta_cache w1 = meta_cache w) as [-> Hsame].
  { destruct Hfail as [[e He]|[He|(m & rest & e & He & Hg)]];
      rewrite He in Hcall; [| |rewrite Hg in Hcall];
      by injection Hcall as <- <-. }
  split_and!; [done..|]. intros db'. rewrite search_movie_unfold, Hsame, Hb.
  destruct (db_search_movie db' title) as [[|m rest]|];
    [by eexists..| |by eexists].
  destruct (db_get_movie db' (movieID m)); by eexists.
Qed.
End search_movie_facts.

Lemma search_movie_cached_witness :
  search_movie imdb_movie_bool db_up "Inception 2010" world_fresh
    = (Ok (Some inception),
       put_meta "Inception 2010" inception
         (add_calls [EvSearch "Inception 2010"; EvGetMovie "1375666"]
            world_fresh))
  ∧ imdb_movie_bool inception = true
  ∧ ∀ db' w', meta_cache w' !! "Inception 2010" = Some inception →
       search_movie imdb_movie_bool db' "Inception 2010" w'
         = (Ok (Some inception), w').
Proof.
  assert (search_movie imdb_movie_bool db_up "Inception 2010" world_fresh
    = (Ok (Some inception),
       put_meta "Inception 2010" inception
         (add_calls [EvSearch "Inception 2010"; EvGetMovie "1375666"]
            world_fresh)))
    as Hcall by reflexivity.
  assert (imdb_movie_bool inception = true) as Htrue by reflexivity.
  split_and!; [exact Hcall|exact Htrue|].
  exact (proj1 (proj2 (search_movie_cached imdb_movie_bool db_up
           "Inception 2010" world_fresh inception _ Hcall Htrue))).
Defined.

(** A record without a title is false: it is stored by the first call, and
    the second call still goes to the provider. *)
Lemma search_movie_untitled_refetches :
  let w1 := put_meta "Inception 2010" inception_untitled
              (add_calls [EvSearch "Inception 2010"; EvGetMovie "1375666"]
                 world_fresh) in
  search_movie imdb_movie_bool db_partial "Inception 2010" world_fresh
    = (Ok (Some inception_untitled), w1) ∧
  meta_cache w1 !! "Inception 2010" = Some inception_untitled ∧
  calls (search_movie imdb_movie_bool db_partial "Inception 2010" w1).2
    = calls w1 ++ [EvSearch "Inception 2010"; EvGetMovie "1375666"].
Proof.
  split_and!.
  - rewrite search_movie_unfold. reflexivity.
  - apply lookup_insert_eq.
  - rewrite search_movie_unfold.
    assert (meta_bool imdb_movie_bool
              (meta_cache
                 (put_meta "Inception 2010" inception_untitled
                    (add_calls
                       [EvSearch "Inception 2010"; EvGetMovie "1375666"]
                       world_fresh)) !! "Inception 2010") = false) as ->.
    { simpl. rewrite lookup_insert_eq. reflexivity. }
    reflexivity.
Qed.

Lemma search_movie_failure_witness :
  search_movie imdb_movie_bool db_down "Inception 2010" world_fresh
    = (Ok None, add_calls [EvSearch "Inception 2010"] world_fresh) ∧
  ∀ db', ∃ rest,
    calls (search_movie imdb_movie_bool db' "Inception 2010"
             (add_calls [EvSearch "Inception 2010"] world_fresh)).2
      = calls (add_calls [EvSearch "Inception 2010"] world_fresh)
          ++ EvSearch "Inception 2010" :: rest.
Proof.
  assert (search_movie imdb_movie_bool db_down "Inception 2010" world_fresh
    = (Ok None, add_calls [EvSearch "Inception 2010"] world_fresh)) as Hcall
    by reflexivity.
  split; [exact Hcall|].
  refine (proj2 (proj2 (search_movie_failure imdb_movie_bool db_down
           "Inception 2010" world_fresh _ _ [EvSearch "Inception 2010"]
           Hcall _ _ _))).
  - reflexivity.
  - apply list_elem_of_singleton. reflexivity.
  - left. exists ProviderError. reflexivity.
Defined.

(** ** Sorting the report *)

Lemma rmap_zip {A B} (f : A → result B) (d : A → B) (l : list A) :
  (∀ x, x ∈ l → ∃ y, f x = Ok y) →
  (∀ x y, f x = Ok y → d x = y) →
  ∃ ys, rmap f l = Ok ys ∧ zip ys l = (λ x, (d x, x)) <$> l.
Proof.
  intros Hok Hd. induction l as [|x l IH]; simpl; [by eexists|].
  destruct (Hok x) as [y Hy]; [by left|]. rewrite Hy. simpl.
  destruct IH as (ys & -> & Hz); [intros; apply Hok; by right|].
  simpl. eexists. split; [done|]. simpl. by rewrite Hz, (Hd _ _ Hy).
Qed.

Section sort_metadata_facts.
Context (py_str : value → string).
Context (parse_float : string → option Q).

Abbreviation rating_key := (rating_key parse_float).
Abbreviation rating_of := (rating_of parse_float).
Abbreviation sort_metadata := (sort_metadata parse_float).

Lemma sort_metadata_sorted found :
  (∀ e, e ∈ found → ∃ q, rating_key e = Ok q) →
  sort_metadata found =
    Ok (sorted (λ a b, Qle_bool (rating_of b) (rating_of a)) found).
Proof.
  intros Hok. unfold sort_metadata.
  destruct (rmap_zip rating_key rating_of found Hok) as (ks & -> & Hz).
  { intros e q He. unfold rating_of. by rewrite He. }
  simpl. rewrite Hz, (sorted_fmap (λ e, (rating_of e, e))).
  rewrite <-list_fmap_compose. by rewrite list_fmap_id.
Qed.

End sort_metadata_facts.


Example sort_metadata_sample :
  sort_metadata no_float
    [(video_b, movie_title_only); (video_inception, movie_rated)]
  = Ok [(video_inception, movie_rated); (video_b, movie_title_only)].
Proof. reflexivity. Qed.

(** ** The presenter *)


Section print_metadata_facts.
Context (py_str : value → string).

Abbreviation make_entry := (make_entry py_str).
Abbreviation print_metadata := (print_metadata py_str).







End print_metadata_facts.





(** * Further properties *)

(** ** More on the deduplication *)

Section unique_videos_more.
Context (st_size : string → result Z).

Abbreviation video_size := (video_size st_size).
Abbreviation unique_step := (unique_step st_size).
Abbreviation unique_videos := (unique_videos st_size).
Abbreviation has_size := (has_size st_size).
Abbreviation covers := (covers st_size).
Abbreviation collisions_sized := (collisions_sized st_size).

(** X1: when no two input videos share a title, no file size is read: the
    result is the set of the input videos, whatever [stat] would say. *)
Theorem unique_videos_distinct_titles (videos : list Video) :
  NoDup (title <$> videos) →
  unique_videos videos = Ok (list_to_set videos).
Proof.
  intros Hnd. unfold unique_videos.
  rewrite rfold_unique_fresh; [|done|by intros v _]. simpl.
  f_equal. apply set_eq. intros v.
  rewrite elem_of_map_img, elem_of_list_to_set.
  setoid_rewrite lookup_foldl_insert; [|done|by intros w _..].
  setoid_rewrite lookup_empty. split.
  - intros (t & [[Hv _]|?]); done.
  - intros Hv. exists (title v). auto.
Qed.

(** A step that succeeds on a map with an entry for the title has read the
    size of the new video and of the entry. *)
Lemma unique_step_sized m x m1 other :
  unique_step m x = Ok m1 → m !! title x = Some other →
  has_size x ∧ has_size other.
Proof.
  unfold unique_step. intros Hstep Hlk. rewrite Hlk in Hstep.
  destruct (py_max video_size x other) as [c|] eqn:Hmax; [|done].
  apply py_max_inv in Hmax as (ka & kb & Ha & Hb & _).
  split; red; eauto.
Qed.

Lemma unique_step_collisions seen m x m1 :
  unique_step m x = Ok m1 →
  keyed seen m → covers seen m →
  collisions_sized seen → collisions_sized (seen ++ [x]).
Proof.
  intros Hstep Hk Hc Hsz i j v w Hi Hj Hne Ht.
  destruct (decide (i < length seen)%nat) as [Hil|Hil];
    destruct (decide (j < length seen)%nat) as [Hjl|Hjl].
  - rewrite lookup_app_l in Hi, Hj by done. eauto.
  - rewrite lookup_app_l in Hi by done.
    rewrite lookup_app_r in Hj by lia.
    apply list_lookup_singleton_Some in Hj as [_ <-].
    destruct (Hc v) as (u & Hu & _); [by eapply list_elem_of_lookup_2|].
    rewrite Ht in Hu.
    destruct (unique_step_sized _ _ _ _ Hstep Hu) as [_ Hsu].
    destruct (Hk _ _ Hu) as [Htu [k Hk']%list_elem_of_lookup].
    destruct (decide (i = k)) as [->|Hik]; [congruence|].
    apply (Hsz i k v u); [done..|congruence].
  - rewrite lookup_app_r in Hi by lia.
    rewrite lookup_app_l in Hj by done.
    apply list_lookup_singleton_Some in Hi as [_ <-].
    destruct (Hc w) as (u & Hu & _); [by eapply list_elem_of_lookup_2|].
    rewrite <-Ht in Hu.
    by destruct (unique_step_sized _ _ _ _ Hstep Hu).
  - rewrite lookup_app_r in Hi, Hj by lia.
    apply list_lookup_singleton_Some in Hi as [Hi _].
    apply list_lookup_singleton_Some in Hj as [Hj _]. lia.
Qed.

Lemma rfold_unique_collisions vs : ∀ seen m m',
  rfold unique_step m vs = Ok m' →
  keyed seen m → covers seen m →
  collisions_sized seen → collisions_sized (seen ++ vs).
Proof.
  induction vs as [|x vs IH]; intros seen m m' Hfold Hk Hc Hsz.
  - by rewrite app_nil_r.
  - simpl in Hfold. destruct (unique_step m x) as [m1|] eqn:Hstep; [|done].
    simpl in Hfold.
    destruct (unique_step_inv _ _ _ _ _ Hstep Hk Hc) as [Hk1 Hc1].
    rewrite cons_middle, (assoc_L (++)).
    eapply IH; [done..|]. by eapply unique_step_collisions.
Qed.

(** X2: [unique_videos] returns a set exactly when every input video that
    shares its title with a video at another position has a file size that
    can be read; in every other case it raises. *)
Theorem unique_videos_succeeds_iff (videos : list Video) :
  (∃ s, unique_videos videos = Ok s) ↔ collisions_sized videos.
Proof.
  assert (keyed [] ∅) as Hk0 by (intros t v; by rewrite lookup_empty).
  assert (covers [] ∅) as Hc0 by (intros v Hv; by apply elem_of_nil in Hv).
  split.
  - intros [s Hs]. unfold unique_videos in Hs.
    destruct (rfold unique_step ∅ videos) as [m|] eqn:Hm; [|done].
    apply (rfold_unique_collisions videos [] ∅ m Hm Hk0 Hc0).
    intros i j v w Hi. by rewrite lookup_nil in Hi.
  - intros Hsz.
    destruct (rfold_unique_ok st_size videos [] ∅ Hk0 Hc0 Hsz) as [m Hm].
    exists (map_img m). unfold unique_videos. by rewrite Hm.
Qed.

(** Once [v] is the entry of its title, videos of that title that are
    strictly smaller do not replace it. *)
Lemma rfold_unique_keeps v l : ∀ m m',
  m !! title v = Some v →
  (∀ w n k, w ∈ l → title w = title v →
     video_size v = Ok n → video_size w = Ok k → k < n) →
  rfold unique_step m l = Ok m' →
  m' !! title v = Some v.
Proof.
  induction l as [|x l IH]; intros m m' Hv Hlt Hfold.
  { by injection Hfold as <-. }
  simpl in Hfold. destruct (unique_step m x) as [m1|] eqn:Hstep; [|done].
  simpl in Hfold. eapply (IH m1); [|by intros; eapply Hlt; [right|..]|done].
  unfold unique_step in Hstep.
  destruct (decide (title x = title v)) as [Heq|Hne].
  - rewrite Heq, Hv in Hstep.
    destruct (py_max video_size x v) as [c|] eqn:Hmax; [|done].
    simpl in Hstep. injection Hstep as <-. rewrite lookup_insert_eq.
    unfold py_max in Hmax.
    destruct (video_size x) as [ka|] eqn:Ha; [|done].
    destruct (video_size v) as [kb|] eqn:Hb; [|done].
    simpl in Hmax. injection Hmax as <-.
    assert (ka < kb) as Hlt' by (eapply (Hlt x); [by left|done..]).
    by destruct (Z.ltb_spec ka kb); [|lia].
  - destruct (m !! title x) as [other|].
    + destruct (py_max video_size x other) as [c|]; [|done].
      simpl in Hstep. injection Hstep as <-. by rewrite lookup_insert_ne.
    + injection Hstep as <-. by rewrite lookup_insert_ne.
Qed.

(** X3: of the input videos of one title, the one that is kept is the
    last of the largest: a video that is no smaller than every earlier
    video of its title and strictly larger than every later one is in the
    result. *)
Theorem unique_videos_keeps_last_largest (l1 l2 : list Video) (v : Video)
    (s : gset Video) :
  unique_videos (l1 ++ v :: l2) = Ok s →
  (∀ w n k, w ∈ l1 → title w = title v →
     video_size v = Ok n → video_size w = Ok k → k ≤ n) →
  (∀ w n k, w ∈ l2 → title w = title v →
     video_size v = Ok n → video_size w = Ok k → k < n) →
  v ∈ s.
Proof.
  unfold unique_videos. intros Hs Hle Hlt.
  destruct (rfold unique_step ∅ (l1 ++ v :: l2)) as [m|] eqn:Hm; [|done].
  simpl in Hs. injection Hs as <-.
  apply (elem_of_map_img_2 (SA:=gset Video) m (title v)).
  assert (∃ m1 m2, rfold unique_step ∅ l1 = Ok m1 ∧
            unique_step m1 v = Ok m2 ∧ rfold unique_step m2 l2 = Ok m)
    as (m1 & m2 & Hm1 & Hstep & Hm2).
  { clear Hle Hlt. revert Hm. generalize (∅ : gmap string Video).
    induction l1 as [|x l1 IH]; intros m0 Hm; simpl in Hm.
    - destruct (unique_step m0 v) as [m2|] eqn:Hstep; [|done].
      by exists m0, m2.
    - destruct (unique_step m0 x) as [mx|] eqn:Hx; [|done].
      simpl in Hm. destruct (IH mx Hm) as (m1 & m2 & ? & ? & ?).
      exists m1, m2. simpl. by rewrite Hx. }
  eapply rfold_unique_keeps; [|done..].
  destruct (rfold_unique_inv st_size l1 [] ∅ m1 Hm1) as [Hk _].
  { intros t u. by rewrite lookup_empty. }
  { intros u Hu. by apply elem_of_nil in Hu. }
  simpl in Hk. unfold unique_step in Hstep.
  destruct (m1 !! title v) as [other|] eqn:Hlk.
  - destruct (Hk _ _ Hlk) as [Hto Hin].
    unfold py_max in Hstep.
    destruct (video_size v) as [ka|] eqn:Ha; [|done].
    destruct (video_size other) as [kb|] eqn:Hb; [|done].
    simpl in Hstep. injection Hstep as <-. rewrite lookup_insert_eq.
    assert (kb ≤ ka) by (eapply (Hle other); done).
    by destruct (Z.ltb_spec ka kb); [lia|].
  - injection Hstep as <-. by rewrite lookup_insert_eq.
Qed.
End unique_videos_more.

Lemma unique_videos_distinct_titles_witness :
  unique_videos (λ _, Raise OSError) [video_a10; video_b]
    = Ok (list_to_set [video_a10; video_b]).
Proof.
  apply (unique_videos_distinct_titles (λ _, Raise OSError)
           [video_a10; video_b]).
  apply NoDup_cons. split.
  - intros Hin. apply list_elem_of_singleton in Hin. discriminate.
  - apply NoDup_singleton.
Defined.

(** With equal sizes the later video wins. *)
Lemma unique_videos_keeps_last_largest_witness :
  video_a20 ∈ ({[ video_a20 ]} : gset Video).
Proof.
  apply (unique_videos_keeps_last_largest (λ _, Ok 10)
           [video_a10] [] video_a20).
  - apply result_set_eq. vm_compute. reflexivity.
  - intros w n k _ _ [= <-] [= <-]. lia.
  - intros w n k Hw. by apply elem_of_nil in Hw.
Defined.

(** ** More on the scan cache *)

Section get_videos_more.
Context (scan_videos : string → result (list Video)).
Context (st_size : string → result Z).
Context (POOL_SIZE : Z).

Abbreviation scan := (scan scan_videos).
Abbreviation get_videos := (get_videos scan_videos st_size POOL_SIZE).

Lemma get_videos_unfold dirs w :
  get_videos dirs w =
    if videos_bool (videos_cache w !! videos_key dirs)
    then (Ok (default ∅ (videos_cache w !! videos_key dirs)), w)
    else if POOL_SIZE <? 1 then (Raise ValueError, w)
    else match mmap scan (str <$> dirs) w with
         | (Ok scanned, w2) =>
             match unique_videos st_size (concat scanned) with
             | Ok s => (Ok s, put_videos (videos_key dirs) s w2)
             | Raise e => (Raise e, w2)
             end
         | (Raise e, w2) => (Raise e, w2)
         end.
Proof.
  unfold get_videos, bind.
  destruct (videos_bool (videos_cache w !! videos_key dirs)); [done|].
  unfold thread_map. destruct (POOL_SIZE <? 1); [done|].
  change (map str dirs) with (str <$> dirs).
  destruct (mmap scan (str <$> dirs) w) as [[scanned|e] w2]; [|done].
  unfold lift. by destruct (unique_videos st_size (concat scanned)).
Qed.

(** Scanning only adds scans of the directories it is given. *)
Lemma mmap_scan_calls ds : ∀ w,
  ∃ new, (mmap scan ds w).2 = add_calls new w ∧
         ∀ e, e ∈ new → ∃ d, d ∈ ds ∧ e = EvScan d.
Proof.
  induction ds as [|d ds IH]; intros w; simpl.
  { exists []. split; [by rewrite add_calls_nil|]. by intros e ?%elem_of_nil. }
  unfold bind, scan at 1, bind, log, lift.
  destruct (scan_videos d) as [vs|e].
  - destruct (IH (add_calls [EvScan d] w)) as (new & Hw & Hnew).
    exists ([EvScan d] ++ new). split.
    + destruct (mmap scan ds (add_calls [EvScan d] w)) as [[vss|e] w2];
        simpl in *; by rewrite Hw, add_calls_app.
    + intros e [->%list_elem_of_singleton|He]%elem_of_app.
      * exists d. split; [by left|done].
      * destruct (Hnew e He) as (d' & ? & ?). exists d'. split; [by right|done].
  - exists [EvScan d]. split; [done|].
    intros e' ->%list_elem_of_singleton. exists d. split; [by left|done].
Qed.

(** X4: a call of [get_videos] leaves the metadata store and every other
    key of the scan store as they were, calls nothing but the scanner, and
    only on its own directories; when it raises, the scan store is not
    changed at all; and the set it returns is the set that the store holds
    under the key afterwards. *)
Theorem get_videos_frame (dirs : list Path) (w : world) :
  meta_cache (get_videos dirs w).2 = meta_cache w ∧
  (∀ k, k ≠ videos_key dirs →
     videos_cache (get_videos dirs w).2 !! k = videos_cache w !! k) ∧
  (∃ new, calls (get_videos dirs w).2 = calls w ++ new ∧
     ∀ e, e ∈ new → ∃ d, d ∈ dirs ∧ e = EvScan (str d)) ∧
  (∀ e, (get_videos dirs w).1 = Raise e →
     videos_cache (get_videos dirs w).2 = videos_cache w) ∧
  (∀ s, (get_videos dirs w).1 = Ok s →
     videos_cache (get_videos dirs w).2 !! videos_key dirs = Some s).
Proof.
  rewrite get_videos_unfold.
  destruct (videos_bool (videos_cache w !! videos_key dirs)) eqn:Hb.
  { simpl. split_and!; [done..| |done|].
    - exists []. split; [by rewrite app_nil_r|]. by intros e ?%elem_of_nil.
    - intros s [= <-]. by destruct (videos_cache w !! videos_key dirs). }
  destruct (POOL_SIZE <? 1).
  { simpl. split_and!; [done..| |done|done].
    exists []. split; [by rewrite app_nil_r|]. by intros e ?%elem_of_nil. }
  destruct (mmap_scan_calls (str <$> dirs) w) as (new & Hw2 & Hnew).
  assert (∀ e, e ∈ new → ∃ d, d ∈ dirs ∧ e = EvScan (str d))
    as Hnew'.
  { intros e (d & (p & -> & Hp)%list_elem_of_fmap & ->)%Hnew. eauto. }
  destruct (mmap scan (str <$> dirs) w) as [[scanned|e] w2];
    simpl in Hw2; subst w2.
  - destruct (unique_videos st_size (concat scanned)) as [s|e]; simpl.
    + split_and!; [done| |by exists new|done|].
      * intros k Hk. by rewrite lookup_insert_ne.
      * intros s' [= <-]. apply lookup_insert_eq.
    + split_and!; [done..|by exists new|done|done].
  - simpl. split_and!; [done..|by exists new|done|done].
Qed.

(** X5: with fewer than one worker and nothing usable in the store, the
    call raises [ValueError] before any directory is scanned, and stores
    nothing. *)
Theorem get_videos_no_worker (dirs : list Path) (w : world) :
  videos_bool (videos_cache w !! videos_key dirs) = false →
  POOL_SIZE < 1 →
  get_videos dirs w = (Raise ValueError, w).
Proof.
  intros Hb Hpool. rewrite get_videos_unfold, Hb.
  by destruct (Z.ltb_spec POOL_SIZE 1); [|lia].
Qed.
End get_videos_more.

(** X6: after a call that returned a non-empty set, every later call for
    the same directories, in whatever order they are given, returns that
    set from the store and leaves the world as it is, whatever the scanner,
    the files and the worker count have become. *)
Theorem get_videos_again scan_videos st_size POOL_SIZE
    (dirs : list Path) (w w1 : world) (s : gset Video) :
  get_videos scan_videos st_size POOL_SIZE dirs w = (Ok s, w1) →
  s ≠ ∅ →
  ∀ scan_videos' st_size' POOL_SIZE' dirs',
    dirs' ≡ₚ dirs →
    get_videos scan_videos' st_size' POOL_SIZE' dirs' w1 = (Ok s, w1).
Proof.
  intros Hcall Hne scan_videos' st_size' POOL_SIZE' dirs' Hperm.
  apply get_videos_hit; [|done].
  assert (videos_key dirs' = videos_key dirs) as ->.
  { unfold videos_key. f_equal. apply sorted_strings_unique.
    by rewrite Hperm. }
  destruct (get_videos_frame scan_videos st_size POOL_SIZE dirs w)
    as (_ & _ & _ & _ & Hstored).
  rewrite Hcall in Hstored. by apply Hstored.
Qed.

Lemma get_videos_no_worker_witness :
  get_videos scan_finds_b sample_size 0 [ {| str := "/a" |} ] world_empty_hit
    = (Raise ValueError, world_empty_hit).
Proof.
  apply (get_videos_no_worker scan_finds_b sample_size 0
           [ {| str := "/a" |} ] world_empty_hit).
  - reflexivity.
  - lia.
Defined.

Lemma get_videos_again_witness :
  get_videos (λ _, Raise OSError) (λ _, Raise OSError) 0
    [ {| str := "/b" |}; {| str := "/a" |} ]
    (put_videos "/a /b" {[ video_b ]}
       (add_calls [EvScan "/a"; EvScan "/b"] world_fresh))
  = (Ok {[ video_b ]},
     put_videos "/a /b" {[ video_b ]}
       (add_calls [EvScan "/a"; EvScan "/b"] world_fresh)).
Proof.
  apply (get_videos_again scan_finds_b (λ _, Ok 1) 10
           [ {| str := "/a" |}; {| str := "/b" |} ] world_fresh).
  - apply (get_videos_miss scan_finds_b (λ _, Ok 1) 10
             [ {| str := "/a" |}; {| str := "/b" |} ] world_fresh
             [[video_b]; [video_b]] {[ video_b ]}).
    + left. reflexivity.
    + lia.
    + reflexivity.
    + apply result_set_eq. vm_compute. reflexivity.
  - apply singleton_video_nonempty.
  - apply perm_swap.
Defined.

(** ** More on the metadata lookup *)

Section search_movie_more.
Context (movie_bool : Movie → bool).

Abbreviation meta_bool := (meta_bool movie_bool).
Abbreviation search_movie := (search_movie movie_bool).

(** X7: a lookup never raises; it leaves the scan store and the records of
    every other query as they were; it calls the provider not at all, or
    for one search, or for one search followed by one detail fetch; and a
    record that it returns is the record that the store holds under the
    query afterwards. *)
Theorem search_movie_frame (db : IMDb) (title : string) (w : world) :
  (∃ o, (search_movie db title w).1 = Ok o) ∧
  videos_cache (search_movie db title w).2 = videos_cache w ∧
  (∀ t, t ≠ title →
     meta_cache (search_movie db title w).2 !! t = meta_cache w !! t) ∧
  (∃ new, calls (search_movie db title w).2 = calls w ++ new ∧
     (new = [] ∨ new = [EvSearch title] ∨
      ∃ id, new = [EvSearch title; EvGetMovie id])) ∧
  (∀ m, (search_movie db title w).1 = Ok (Some m) →
     meta_cache (search_movie db title w).2 !! title = Some m).
Proof.
  rewrite search_movie_unfold.
  destruct (meta_bool (meta_cache w !! title)).
  { simpl. split_and!; [by eexists|done|done| |by intros m [= ->]].
    exists []. split; [by rewrite app_nil_r|by left]. }
  destruct (db_search_movie db title) as [[|m0 rest]|e]; simpl.
  - split_and!; [by eexists|done|done| |done].
    exists [EvSearch title]. split; [done|]. right. by left.
  - destruct (db_get_movie db (movieID m0)) as [movie|e]; simpl.
    + split_and!; [by eexists|done| | |].
      * intros t Ht. by rewrite lookup_insert_ne.
      * exists [EvSearch title; EvGetMovie (movieID m0)].
        split; [done|]. right. right. by eexists.
      * intros m [= <-]. apply lookup_insert_eq.
    + split_and!; [by eexists|done|done| |done].
      exists [EvSearch title; EvGetMovie (movieID m0)].
      split; [done|]. right. right. by eexists.
  - split_and!; [by eexists|done|done| |done].
    exists [EvSearch title]. split; [done|]. right. by left.
Qed.

End search_movie_more.

Section get_imdb_metadata_facts.
Context (POOL_SIZE : Z).
Context (movie_bool : Movie → bool).

Abbreviation _search_movie := (_search_movie movie_bool).
Abbreviation get_imdb_metadata := (get_imdb_metadata POOL_SIZE movie_bool).



(** X9: with fewer than one worker [get_imdb_metadata] raises [ValueError]
    before the first lookup: the world is left as it was. *)
Theorem get_imdb_metadata_no_worker (db : IMDb) (videos : list Video)
    (w : world) :
  POOL_SIZE < 1 →
  get_imdb_metadata db videos w = (Raise ValueError, w).
Proof.
  intros Hpool. unfold get_imdb_metadata, bind, thread_map.
  by destruct (Z.ltb_spec POOL_SIZE 1); [|lia].
Qed.
End get_imdb_metadata_facts.


(** The video of title B is not found and is left out; the other one is
    yielded with its record. *)
Example get_imdb_metadata_sample :
  (get_imdb_metadata 10 imdb_movie_bool db_inception_only
     [video_b; video_inception] world_fresh).1
  = Ok [(video_inception, inception)].
Proof. reflexivity. Qed.

Lemma get_imdb_metadata_no_worker_witness :
  get_imdb_metadata 0 imdb_movie_bool db_up [video_inception] world_fresh
    = (Raise ValueError, world_fresh).
Proof.
  apply (get_imdb_metadata_no_worker 0 imdb_movie_bool db_up
           [video_inception] world_fresh).
  lia.
Defined.

Section get_imdb_metadata_cached.
Context (POOL_SIZE : Z).
Context (movie_bool : Movie → bool).

Lemma mmap_search_movie_cached db videos records w :
  Forall2 (λ v m, meta_cache w !! movie_query v = Some m ∧
                  movie_bool m = true) videos records →
  mmap (_search_movie movie_bool db) videos w = (Ok (Some <$> records), w).
Proof.
  induction 1 as [|v m videos records [Hv Hm] _ IH]; [done|].
  simpl. unfold bind. unfold _search_movie at 1.
  rewrite search_movie_unfold, Hv. simpl. rewrite Hm.
  by rewrite IH.
Qed.

(** X18: when the metadata store holds a record that is true for the query
    of every video, and there is at least one worker, [get_imdb_metadata]
    yields every video with its stored record, in the order of the input,
    and leaves the world as it was: the provider is not called. *)
Theorem get_imdb_metadata_cached (db : IMDb) (videos : list Video)
    (records : list Movie) (w : world) :
  1 ≤ POOL_SIZE →
  Forall2 (λ v m, meta_cache w !! movie_query v = Some m ∧
                  movie_bool m = true) videos records →
  get_imdb_metadata POOL_SIZE movie_bool db videos w
    = (Ok (zip videos records), w).
Proof.
  intros Hpool Hall. unfold get_imdb_metadata, bind, thread_map.
  destruct (Z.ltb_spec POOL_SIZE 1) as [|_]; [lia|].
  rewrite (mmap_search_movie_cached db videos records w Hall).
  unfold ret. do 2 f_equal.
  induction Hall as [|v m videos records [_ Hm] _ IH]; [done|].
  change (Some <$> m :: records) with (Some m :: (Some <$> records)).
  cbn [zip_with omap]. simpl. rewrite Hm. simpl. f_equal. exact IH.
Qed.
End get_imdb_metadata_cached.

Lemma get_imdb_metadata_cached_witness :
  get_imdb_metadata 10 imdb_movie_bool db_down [video_inception]
    (put_meta "Inception 2010" inception world_fresh)
  = (Ok (zip [video_inception] [inception]),
     put_meta "Inception 2010" inception world_fresh).
Proof.
  apply (get_imdb_metadata_cached 10 imdb_movie_bool db_down
           [video_inception] [inception]).
  - lia.
  - constructor; [|constructor]. split; reflexivity.
Defined.

(** ** The query string and the directory arguments *)

Lemma py_rstrip_space s : py_rstrip (s +:+ " ") = py_rstrip s.
Proof.
  induction s as [|c s IH]; [done|].
  change (String c s +:+ " ") with (String c (s +:+ " ")).
  simpl. by rewrite IH.
Qed.

(** X10: a video without a year, or with the year 0, is looked up under its
    stripped title alone: the space that separates title and year is
    stripped with the rest. *)
Theorem movie_query_no_year (video : Video) :
  year video = None ∨ year video = Some 0 →
  movie_query video = py_strip (title video).
Proof.
  intros Hyear. unfold movie_query, py_strip.
  assert ((match year video with
           | Some y => if y =? 0 then EmptyString else pretty y
           | None => EmptyString
           end) = EmptyString) as ->.
  { by destruct Hyear as [-> | ->]. }
  change (" " +:+ EmptyString) with " ". by rewrite py_rstrip_space.
Qed.

Lemma movie_query_no_year_witness :
  movie_query video_b = py_strip (title video_b).
Proof. apply (movie_query_no_year video_b). left. reflexivity. Defined.

Example movie_query_sample : movie_query video_inception = "Inception 2010".
Proof. reflexivity. Qed.

Lemma py_split_no_sep sep s :
  has_char sep s = false → py_split sep s = [s].
Proof.
  induction s as [|c s IH]; [done|]. simpl.
  destruct (Ascii.eqb c sep); [done|]. intros Hs. by rewrite IH.
Qed.

Lemma py_split_app sep p s :
  has_char sep p = false →
  py_split sep (p +:+ String sep s) = p :: py_split sep s.
Proof.
  induction p as [|c p IH]; simpl.
  { intros _. change (EmptyString +:+ String sep s) with (String sep s).
    simpl. by rewrite Ascii.eqb_refl. }
  change (String c p +:+ String sep s) with (String c (p +:+ String sep s)).
  simpl. destruct (Ascii.eqb c sep); [done|]. intros Hp. by rewrite IH.
Qed.

(** Joining with commas and splitting at commas gives the pieces back, as
    long as there is a piece and no piece holds a comma. *)
Lemma py_split_concat (l : list string) :
  l ≠ [] → Forall (λ p, has_char "," p = false) l →
  py_split "," (String.concat "," l) = l.
Proof.
  induction l as [|p l IH]; [done|]. intros _ [Hp Hl]%Forall_cons.
  destruct l as [|q l]; simpl.
  - by apply py_split_no_sep.
  - change ("," +:+ ?s) with (String ","%char s).
    rewrite py_split_app by done. f_equal. by apply IH.
Qed.

Section main_dirs_facts.
Context (absolute : string → result Path).

(** X11: a [--dirs] value that joins places with commas, none of which
    holds a comma, gives exactly these places, stripped and made absolute,
    in their order, followed by the [--dir] values treated the same way;
    the first path that cannot be made absolute ends the driver. *)
Theorem main_dirs_joined (places args_dir : list string) :
  String.concat "," places ≠ EmptyString →
  Forall (λ p, has_char "," p = false) places →
  main_dirs absolute (String.concat "," places) args_dir =
    match rmap absolute ((py_strip <$> places) ++ (py_strip <$> args_dir))
    with
    | Ok dirs => inr dirs
    | Raise e => inl (PathError e)
    end.
Proof.
  intros Hne Hplaces. unfold main_dirs.
  destruct (String.eqb_spec (String.concat "," places) EmptyString);
    [done|].
  rewrite py_split_concat; [done| |done]. by intros ->.
Qed.

(** X12: an empty [--dirs] cannot be combined with [--dir]: the driver
    ends with an [AttributeError] whatever the [--dir] values are; with no
    [--dir] either, it goes on with no directory at all. *)
Theorem main_dirs_empty (args_dir : list string) :
  (args_dir ≠ [] → main_dirs absolute EmptyString args_dir
                     = inl AttributeError) ∧
  (args_dir = [] → main_dirs absolute EmptyString args_dir = inr []).
Proof. split; by destruct args_dir. Qed.
End main_dirs_facts.

Lemma main_dirs_joined_witness :
  main_dirs sample_absolute (String.concat "," DEFAULT_PLACES) [" /x "] =
    inr [ {| str := "/home/user/~/Downloads" |};
          {| str := "/home/user/~/.aMule/Incoming" |};
          {| str := "/home/user//x" |} ].
Proof.
  apply (main_dirs_joined sample_absolute DEFAULT_PLACES [" /x "]).
  - discriminate.
  - repeat constructor.
Defined.

Lemma main_dirs_empty_witness :
  main_dirs sample_absolute EmptyString ["/x"] = inl AttributeError.
Proof.
  apply (proj1 (main_dirs_empty sample_absolute ["/x"])). discriminate.
Defined.

(** ** More on the report *)

Lemma rmap_length {A B} (f : A → result B) (l : list A) : ∀ ys,
  rmap f l = Ok ys →
  length ys = length l ∧
  ∀ i x y, l !! i = Some x → ys !! i = Some y → f x = Ok y.
Proof.
  induction l as [|x l IH]; intros ys Hys; simpl in Hys.
  { injection Hys as <-. split; [done|]. intros i x y Hi.
    by rewrite lookup_nil in Hi. }
  destruct (f x) as [y|] eqn:Hx; [|done]. simpl in Hys.
  destruct (rmap f l) as [ys'|]; [|done]. injection Hys as <-.
  destruct (IH ys' eq_refl) as [Hlen Hall]. split; [simpl; by rewrite Hlen|].
  intros [|i] x' y' Hi Hy; simpl in Hi, Hy; [congruence|by eapply Hall].
Qed.

Lemma rmap_raise {A B} (f : A → result B) (l : list A) (x : A) :
  x ∈ l → (∃ e, f x = Raise e) → ∃ e, rmap f l = Raise e.
Proof.
  intros Hx [e He]. induction l as [|y l IH]; [by apply elem_of_nil in Hx|].
  simpl. destruct (f y) as [b|e'] eqn:Hy; [|by eexists].
  apply elem_of_cons in Hx as [->|Hx]; [congruence|].
  simpl. destruct (IH Hx) as [e2 ->]. by eexists.
Qed.

Lemma rbind_Ok {A B} (a : A) (k : A → result B) : rbind (Ok a) k = k a.
Proof. reflexivity. Qed.

Lemma rmap_names (ds : list value) (names : list string) :
  Forall2 (λ d n, py_getitem d "name" = Ok (VStr n)) ds names →
  rmap (λ d, py_getitem d "name") ds = Ok (VStr <$> names).
Proof.
  induction 1 as [|d n ds names Hd _ IH]; [done|].
  change (VStr <$> n :: names) with (VStr n :: (VStr <$> names)).
  cbn [rmap rbind]. rewrite Hd. cbn [rbind]. by rewrite IH.
Qed.

Section report_more.
Context (py_str : value → string).
Context (parse_float : string → option Q).

Abbreviation make_entry := (make_entry py_str).
Abbreviation print_metadata := (print_metadata py_str).
Abbreviation rating_key := (rating_key parse_float).
Abbreviation rating_of := (rating_of parse_float).
Abbreviation sort_metadata := (sort_metadata parse_float).
Abbreviation main_metadata := (main_metadata py_str parse_float).

(** X13: a table that is printed has one row for each pair, in the order
    of the pairs, and eight columns in each row; the rating column holds
    the rating of the record as it is, [None] when there is none, and the
    path column links the file of the video. *)
Theorem print_metadata_table (metadata : list (Video * Movie))
    (table : list (list value)) :
  print_metadata metadata = Ok table →
  length table = length metadata ∧
  ∀ i vm row, metadata !! i = Some vm → table !! i = Some row →
    length row = 8%nat ∧
    row !! 5%nat = Some (meta_get vm.2 "rating") ∧
    row !! 7%nat = Some (VStr ("[path](" +:+ name vm.1 +:+ ")")).
Proof.
  unfold print_metadata. intros Htable.
  destruct (rmap (λ vm, make_entry vm.1 vm.2) metadata) as [entries|] eqn:He;
    [|done].
  simpl in Htable. injection Htable as <-.
  destruct (rmap_length _ _ _ He) as [Hlen Hall].
  split; [by rewrite length_fmap|].
  intros i vm row Hvm Hrow.
  apply list_lookup_fmap_Some in Hrow as (e & -> & Hentry).
  specialize (Hall _ _ _ Hvm Hentry). simpl in Hall.
  split; [done|].
  unfold make_entry in Hall.
  destruct (meta_getitem vm.2 "title") as [t|]; [|done].
  destruct (year_field vm.1 vm.2) as [y|]; [|done].
  destruct (directors_field vm.2) as [d|]; [|done].
  destruct (country_field vm.2) as [c|]; [|done].
  destruct (summary_field vm.2) as [s|]; [|done].
  simpl in Hall. by injection Hall as <-.
Qed.

(** X14: one record without a title is enough for no table to be printed:
    [print_metadata] raises. *)
Theorem print_metadata_untitled (metadata : list (Video * Movie))
    (vm : Video * Movie) :
  vm ∈ metadata → data vm.2 !! "title" = None →
  ∃ e, print_metadata metadata = Raise e.
Proof.
  intros Hin Hnone. unfold print_metadata.
  destruct (rmap_raise (λ vm, make_entry vm.1 vm.2) metadata vm Hin)
    as [e ->]; [|by eexists].
  exists KeyError. unfold make_entry, meta_getitem. by rewrite Hnone.
Qed.

(** X15: one rating that [float] does not take is enough for the metadata
    stage to end with an exception before anything is sorted or printed. *)
Theorem sort_metadata_bad_rating (found : list (Video * Movie))
    (vm : Video * Movie) :
  vm ∈ found → (∃ e, rating_key vm = Raise e) →
  ∃ e, sort_metadata found = Raise e ∧ main_metadata true found = Raise e.
Proof.
  intros Hin Hbad. unfold main_metadata, sort_metadata.
  destruct (rmap_raise rating_key found vm Hin Hbad) as [e ->].
  by exists e.
Qed.

(** X16: for a record whose directors are a list of entries with a name
    that is a string, the directors column is these names joined by single
    spaces, and the same holds for the country column and a list of
    country names; the empty list gives the empty string. *)
Theorem directors_country_joined (meta : Movie) :
  (∀ ds names,
     data meta !! "directors" = Some (VList ds) →
     Forall2 (λ d n, py_getitem d "name" = Ok (VStr n)) ds names →
     directors_field meta = Ok (VStr (String.concat " " names))) ∧
  (∀ names,
     data meta !! "countries" = Some (VList (VStr <$> names)) →
     country_field meta = Ok (VStr (String.concat " " names))).
Proof.
  assert (∀ names, py_join " " (VStr <$> names)
                   = Ok (String.concat " " names)) as Hjoin.
  { intros names. unfold py_join.
    assert (rmap (λ v, match v with VStr s => Ok s | _ => Raise TypeError end)
              (VStr <$> names) = Ok names) as ->; [|done].
    induction names as [|n names IH]; [done|].
    change (VStr <$> n :: names) with (VStr n :: (VStr <$> names)).
    cbn [rmap rbind]. by rewrite IH. }
  split.
  - intros ds names Hds Hnames. unfold directors_field, meta_get.
    rewrite Hds. pose proof (rmap_names ds names Hnames) as Hmap.
    destruct ds as [|d ds].
    + apply Forall2_nil_inv_l in Hnames as ->. reflexivity.
    + assert (py_or (default VNone (Some (VList (d :: ds)))) (Ok (VList []))
              = Ok (VList (d :: ds))) as -> by reflexivity.
      rewrite rbind_Ok. unfold py_iter. rewrite rbind_Ok, Hmap, rbind_Ok.
      rewrite Hjoin. reflexivity.
  - intros names Hcs. unfold country_field, meta_get. rewrite Hcs.
    destruct names as [|n names]; [done|].
    assert (py_or (default VNone (Some (VList (VStr <$> n :: names))))
                  (Ok (VList []))
            = Ok (VList (VStr <$> n :: names))) as -> by reflexivity.
    rewrite rbind_Ok. unfold py_iter. rewrite rbind_Ok, Hjoin.
    reflexivity.
Qed.
End report_more.

(** ** Stability of the sort *)

Section sorted_stable.
Context {A : Type} (le : A → A → bool) (P : A → bool).
(** An element that [x] is not [le] to cannot be in the class of [x]. *)
Context (Hclass : ∀ x y, le x y = false → P x = true → P y = false).

Lemma insort_filter x l :
  filter P (insort le x l) = filter P (x :: l).
Proof.
  induction l as [|y l IH]; [done|]. simpl.
  destruct (le x y) eqn:Hxy; [done|].
  rewrite filter_cons, IH, !filter_cons.
  destruct (decide (P x)) as [Hx|Hx]; [|done].
  apply Is_true_true in Hx. rewrite (Hclass x y Hxy Hx).
  by destruct (decide false).
Qed.

Lemma sorted_filter l : filter P (sorted le l) = filter P l.
Proof.
  induction l as [|x l IH]; [done|].
  change (sorted le (x :: l)) with (insort le x (sorted le l)).
  by rewrite insort_filter, !filter_cons, IH.
Qed.
End sorted_stable.

(** X17: the sort of the report is stable: the entries of any one rating
    come out in the order in which they went in. *)
Theorem sort_metadata_stable (parse_float : string → option Q)
    (found out : list (Video * Movie)) (q : Q) :
  (∀ e, e ∈ found → ∃ k, rating_key parse_float e = Ok k) →
  sort_metadata parse_float found = Ok out →
  filter (λ e, Qeq_bool (rating_of parse_float e) q) out
    = filter (λ e, Qeq_bool (rating_of parse_float e) q) found.
Proof.
  intros Hok Hout. rewrite sort_metadata_sorted in Hout by done.
  injection Hout as <-.
  apply (sorted_filter _ (λ e, Qeq_bool (rating_of parse_float e) q)).
  intros x y Hxy Hx. apply Qeq_bool_iff in Hx.
  destruct (Qeq_bool (rating_of parse_float y) q) eqn:Hy; [|done].
  apply Qeq_bool_iff in Hy.
  assert (Qle_bool (rating_of parse_float y) (rating_of parse_float x) = true)
    as Hle; [|congruence].
  apply Qle_bool_iff. rewrite Hx, Hy. apply Qle_refl.
Qed.

Lemma print_metadata_table_witness :
  length [[VStr "![](None)";
           VStr "[Inception](https://www.imdb.com/title/tt1375666)";
           VStr EmptyString; VStr EmptyString; VStr EmptyString; VNone;
           VStr EmptyString; VStr "[path](/a/b.mkv)"]]
    = length [(video_b, movie_title_only)] ∧
  ∀ i vm row,
    [(video_b, movie_title_only)] !! i = Some vm →
    [[VStr "![](None)";
      VStr "[Inception](https://www.imdb.com/title/tt1375666)";
      VStr EmptyString; VStr EmptyString; VStr EmptyString; VNone;
      VStr EmptyString; VStr "[path](/a/b.mkv)"]] !! i = Some row →
    length row = 8%nat ∧
    row !! 5%nat = Some (meta_get vm.2 "rating") ∧
    row !! 7%nat = Some (VStr ("[path](" +:+ name vm.1 +:+ ")")).
Proof.
  apply (print_metadata_table str_sample [(video_b, movie_title_only)]).
  reflexivity.
Defined.

Lemma print_metadata_untitled_witness :
  ∃ e, print_metadata str_sample
         [(video_b, movie_title_only); (video_inception, inception_untitled)]
       = Raise e.
Proof.
  apply (print_metadata_untitled str_sample
           [(video_b, movie_title_only); (video_inception, inception_untitled)]
           (video_inception, inception_untitled)).
  - right. left.
  - reflexivity.
Defined.

Lemma sort_metadata_bad_rating_witness :
  ∃ e,
    sort_metadata no_float
      [(video_b, movie_title_only); (video_inception, movie_bad_rating)]
      = Raise e ∧
    main_metadata str_sample no_float true
      [(video_b, movie_title_only); (video_inception, movie_bad_rating)]
      = Raise e.
Proof.
  apply (sort_metadata_bad_rating str_sample no_float
           [(video_b, movie_title_only); (video_inception, movie_bad_rating)]
           (video_inception, movie_bad_rating)).
  - right. left.
  - exists TypeError. reflexivity.
Defined.

Lemma directors_country_joined_witness :
  directors_field movie_credits = Ok (VStr "Christopher Nolan Emma Thomas") ∧
  country_field movie_credits = Ok (VStr "USA UK").
Proof.
  destruct (directors_country_joined movie_credits) as [Hd Hc]. split.
  - apply (Hd [VDict [("name", VStr "Christopher Nolan")];
               VDict [("id", VInt 2); ("name", VStr "Emma Thomas")]]
              ["Christopher Nolan"; "Emma Thomas"]).
    + reflexivity.
    + repeat constructor.
  - apply (Hc ["USA"; "UK"]). reflexivity.
Defined.

Lemma sort_metadata_stable_witness :
  filter (λ e, Qeq_bool (rating_of no_float e) 0)
    [(video_b, movie_title_only); (video_inception, movie_rated);
     (video_a10, movie_title_only)]
  = filter (λ e, Qeq_bool (rating_of no_float e) 0)
      [(video_inception, movie_rated); (video_b, movie_title_only);
       (video_a10, movie_title_only)].
Proof.
  symmetry.
  apply (sort_metadata_stable no_float
           [(video_b, movie_title_only); (video_inception, movie_rated);
            (video_a10, movie_title_only)]
           [(video_inception, movie_rated); (video_b, movie_title_only);
            (video_a10, movie_title_only)] 0).
  - intros e He. repeat (apply elem_of_cons in He as [-> | He];
      [eexists; reflexivity|]). by apply elem_of_nil in He.
  - reflexivity.
Defined.
